(** * Overload generator: type-expression parser and declaration builder

    A shallow embedding of [scripts/generate_overload/generate_overloads.py]
    (classes [OverloadGenerator] and [ClassMethodOverloadGenerator]) and the
    properties of its type-expression parser, its declaration builder and its
    module assembler. *)

From Stdlib Require Import String Ascii DecimalString.
From Stdlib Require Import List ZArith NArith Lia Bool.
Import ListNotations.

#[local] Set Warnings "-register-all".

(** ** Python strings

    A Python [str] is a sequence of Unicode code points. *)

Definition char := N.
Definition str := list char.

Definition codes (s : string) : str :=
  map N_of_ascii (list_ascii_of_string s).

Definition LBRACKET : char := 91%N.
Definition RBRACKET : char := 93%N.
Definition COMMA : char := 44%N.
Definition SPACE : char := 32%N.
Definition NEWLINE : char := 10%N.

(** [str.isspace] on one code point: the characters [str.strip()] removes. *)
Definition isspace (c : char) : bool :=
  ((9 <=? c) && (c <=? 13) || (28 <=? c) && (c <=? 32)
   || (c =? 133) || (c =? 160) || (c =? 5760)
   || (8192 <=? c) && (c <=? 8202)
   || (c =? 8232) || (c =? 8233) || (c =? 8239) || (c =? 8287)
   || (c =? 12288))%N.

Fixpoint lstrip_by (p : char -> bool) (s : str) : str :=
  match s with
  | [] => []
  | c :: r => if p c then lstrip_by p r else s
  end.

Fixpoint rstrip_by (p : char -> bool) (s : str) : str :=
  match s with
  | [] => []
  | c :: r =>
      match rstrip_by p r with
      | [] => if p c then [] else [c]
      | r' => c :: r'
      end
  end.

(** [s.strip()] *)
Definition strip (s : str) : str := lstrip_by isspace (rstrip_by isspace s).

(** [s.rstrip(']')] *)
Definition rstrip_brackets (s : str) : str :=
  rstrip_by (N.eqb RBRACKET) s.

(** [sep in s] together with [s.split(sep, 1)]: [None] when [sep] does not
    occur, otherwise the text before and after its first occurrence. *)
Fixpoint split_first (sep : char) (s : str) : option (str * str) :=
  match s with
  | [] => None
  | c :: r =>
      if (c =? sep)%N then Some ([], r)
      else match split_first sep r with
           | Some (b, a) => Some (c :: b, a)
           | None => None
           end
  end.

(** [sep.join(l)] *)
Fixpoint join (sep : str) (l : list str) : str :=
  match l with
  | [] => []
  | [x] => x
  | x :: r => x ++ sep ++ join sep r
  end.

(** ** The syntax trees of Python's [ast] module that the generator builds *)

Inductive constant :=
| CStr (s : str)
| CInt (z : Z)
| CEllipsis.

Inductive expr :=
| Name (id : str)
| Subscript (value : expr) (slice : expr)
| Tuple (elts : list expr)
| Constant (value : constant).

Record arg := { arg_name : str; annotation : option expr }.

Record arguments := {
  posonlyargs : list arg;
  args : list arg;
  kwonlyargs : list arg;
  kw_defaults : list (option expr);
  defaults : list expr
}.

Inductive stmt :=
| FunctionDef (name : str) (a : arguments) (body : list stmt)
    (decorator_list : list expr) (returns : expr)
| AsyncFunctionDef (name : str) (a : arguments) (body : list stmt)
    (decorator_list : list expr) (returns : expr)
| ClassDef (name : str) (bases : list expr) (keywords : list (str * expr))
    (body : list stmt) (decorator_list : list expr)
| Expr (value : expr)
| Parsed (source : str).

(** ** Exceptions *)

Inductive exception := IndexError | SyntaxError | ValueError.

Inductive result (A : Type) :=
| Returns (a : A)
| Raises (e : exception).

Arguments Returns {A} a.
Arguments Raises {A} e.

Definition bind {A B} (r : result A) (k : A -> result B) : result B :=
  match r with
  | Returns a => k a
  | Raises e => Raises e
  end.

Notation "x <- r ;; k" := (bind r (fun x => k))
  (at level 61, r at next level, right associativity).

(** A list comprehension [[f(x) for x in l]]: left to right, the first
    exception ends it. *)
Fixpoint comprehension {A B} (f : A -> result B) (l : list A)
  : result (list B) :=
  match l with
  | [] => Returns []
  | x :: r => y <- f x ;; ys <- comprehension f r ;; Returns (y :: ys)
  end.

(** ** [OverloadGenerator._create_type_annotation] *)

(** The state of the scanning loop: [arg_list], [depth], [current]. *)
Record scan_state := {
  arg_list : list str;
  depth : Z;
  current : str
}.

Definition scan_init : scan_state :=
  {| arg_list := []; depth := 0; current := [] |}.

(** One iteration of [for char in args]. *)
Definition scan_step (st : scan_state) (c : char) : scan_state :=
  if (c =? LBRACKET)%N then
    {| arg_list := arg_list st; depth := depth st + 1;
       current := current st ++ [c] |}
  else if (c =? RBRACKET)%N then
    {| arg_list := arg_list st; depth := depth st - 1;
       current := current st ++ [c] |}
  else if ((c =? COMMA)%N && (depth st =? 0)%Z)%bool then
    {| arg_list := arg_list st ++ [strip (current st)]; depth := depth st;
       current := [] |}
  else
    {| arg_list := arg_list st; depth := depth st;
       current := current st ++ [c] |}.

(** The loop followed by [if current: arg_list.append(...)]. *)
Definition scan_finish (st : scan_state) : list str :=
  match current st with
  | [] => arg_list st
  | _ :: _ => arg_list st ++ [strip (current st)]
  end.

Definition split_args (args : str) : list str :=
  scan_finish (fold_left scan_step args scan_init).

(** Evaluation under a bound: [None] says the bound was reached. *)
Fixpoint comprehension_fuel {A B} (f : A -> option (result B)) (l : list A)
  : option (result (list B)) :=
  match l with
  | [] => Some (Returns [])
  | x :: r =>
      match f x with
      | None => None
      | Some (Raises e) => Some (Raises e)
      | Some (Returns y) =>
          match comprehension_fuel f r with
          | None => None
          | Some (Raises e) => Some (Raises e)
          | Some (Returns ys) => Some (Returns (y :: ys))
          end
      end
  end.

(** The recursion of the source is on the segments of the argument text, each
    shorter than the whole; [fuel] bounds its depth. *)
Fixpoint parse_fuel (fuel : nat) (type_str : str) : option (result expr) :=
  match fuel with
  | O => None
  | S fuel' =>
      match split_first LBRACKET type_str with
      | Some (base, args) =>
          let args := rstrip_brackets args in
          let arg_list := split_args args in
          let value := Name (strip base) in
          if (1 <? length arg_list)%nat then
            match comprehension_fuel (parse_fuel fuel') arg_list with
            | None => None
            | Some (Raises e) => Some (Raises e)
            | Some (Returns xs) => Some (Returns (Subscript value (Tuple xs)))
            end
          else
            match arg_list with
            | [] => Some (Raises IndexError)
            | a :: _ =>
                match parse_fuel fuel' a with
                | None => None
                | Some (Raises e) => Some (Raises e)
                | Some (Returns x) => Some (Returns (Subscript value x))
                end
            end
      | None => Some (Returns (Name (strip type_str)))
      end
  end.

(** The length of the text is always enough fuel (lemma [parse_fuel_enough]
    below), so the last branch is never taken. *)
Definition _create_type_annotation (type_str : str) : result expr :=
  match parse_fuel (S (length type_str)) type_str with
  | Some r => r
  | None => Raises IndexError
  end.

(** ** Python values used as mapping keys and mapping values *)

Abbreviation py s := (codes s%string).

(** A class is known by its [__name__] and its [str()] form, any other object
    by its [str()] form. *)
Inductive pyobj :=
| PyType (name : str) (text : str)
| PyStr (s : str)
| PyInt (z : Z)
| PyOther (text : str).

(** [str(x)] *)
Definition py_str (x : pyobj) : str :=
  match x with
  | PyType _ text => text
  | PyStr s => s
  | PyInt z => codes (NilZero.string_of_int (Z.to_int z))
  | PyOther text => text
  end.

(** ** [OverloadGenerator] *)

Record generator := {
  function_name : str;
  mapping : list (pyobj * pyobj);
  key_param : str;
  additional_params : list (str * str);
  is_async : bool;
  has_self : bool;
  return_type_from_mapping : bool;
  return_type_fallback : str
}.

(** The arguments of [__init__]: [None] is an argument left at its default. *)
Record init_args := {
  init_function_name : str;
  init_mapping : list (pyobj * pyobj);
  init_key_param : option str;
  init_additional_params : option (list (str * str));
  init_is_async : option bool;
  init_has_self : option bool;
  init_return_type_from_mapping : option bool;
  init_return_type_fallback : option str
}.

Definition default {A} (d : A) (o : option A) : A :=
  match o with
  | Some a => a
  | None => d
  end.

Definition OverloadGenerator (a : init_args) : generator :=
  {| function_name := init_function_name a;
     mapping := init_mapping a;
     key_param := default (py "resource_name") (init_key_param a);
     additional_params := default [] (init_additional_params a);
     is_async := default false (init_is_async a);
     has_self := default true (init_has_self a);
     return_type_from_mapping :=
       default true (init_return_type_from_mapping a);
     return_type_fallback := default (py "Any") (init_return_type_fallback a)
  |}.

Definition set_has_self (b : bool) (self : generator) : generator :=
  {| function_name := function_name self;
     mapping := mapping self;
     key_param := key_param self;
     additional_params := additional_params self;
     is_async := is_async self;
     has_self := b;
     return_type_from_mapping := return_type_from_mapping self;
     return_type_fallback := return_type_fallback self |}.

Definition _create_literal_annotation (value : str) : expr :=
  Subscript (Name (py "Literal")) (Constant (CStr value)).

(** The loop [for param_name, param_type in self.additional_params]. *)
Fixpoint append_params (params : list (str * str)) (args : list arg)
  : result (list arg) :=
  match params with
  | [] => Returns args
  | (param_name, param_type) :: rest =>
      t <- _create_type_annotation param_type ;;
      append_params rest
        (args ++ [{| arg_name := param_name; annotation := Some t |}])
  end.

Definition _create_arguments (self : generator) (literal_value : option str)
  : result arguments :=
  let args := [] in
  let args :=
    if has_self self
    then args ++ [{| arg_name := py "self"; annotation := None |}]
    else args in
  let key_annotation :=
    match literal_value with
    | Some v => _create_literal_annotation v
    | None => Name (py "str")
    end in
  let args :=
    args ++ [{| arg_name := key_param self;
                annotation := Some key_annotation |}] in
  args <- append_params (additional_params self) args ;;
  Returns {| posonlyargs := []; args := args; kwonlyargs := [];
             kw_defaults := []; defaults := [] |}.

Definition _get_return_type_name (self : generator) (value : pyobj) : str :=
  if negb (return_type_from_mapping self) then py_str value
  else match value with
       | PyType name _ => name
       | PyStr s => s
       | _ => return_type_fallback self
       end.

Definition func_class (self : generator) :=
  if is_async self then AsyncFunctionDef else FunctionDef.

(** The body [...] of a declaration without implementation. *)
Definition placeholder : list stmt := [Expr (Constant CEllipsis)].

Definition _create_overload_function (self : generator) (key : str)
    (return_type_name : str) : result stmt :=
  a <- _create_arguments self (Some key) ;;
  r <- _create_type_annotation return_type_name ;;
  Returns (func_class self (function_name self) a placeholder
             [Name (py "overload")] r).

(** [ast.Module] *)
Record module_ := Module { module_body : list stmt; type_ignores : list str }.

Section Generation.

(** [ast.parse] on the text of an implementation body and [ast.unparse] on a
    module belong to Python's library. *)
Variable ast_parse : str -> result module_.
Variable ast_unparse : module_ -> str.

Definition _create_implementation_function (self : generator)
    (body_code : option str) : result stmt :=
  body <-
    match body_code with
    | Some (c :: code) =>
        body_module <- ast_parse (c :: code) ;;
        Returns (module_body body_module)
    | _ => Returns placeholder
    end ;;
  a <- _create_arguments self None ;;
  r <- _create_type_annotation (return_type_fallback self) ;;
  Returns (func_class self (function_name self) a body [] r).

(** The loop [for key, value in self.mapping.items()]. *)
Fixpoint append_overloads (self : generator) (items : list (pyobj * pyobj))
    (functions : list stmt) : result (list stmt) :=
  match items with
  | [] => Returns functions
  | (key, value) :: rest =>
      let return_type_name := _get_return_type_name self value in
      func_def <-
        _create_overload_function self (py_str key) return_type_name ;;
      append_overloads self rest (functions ++ [func_def])
  end.

(** The declarations of [generate] and of [generate_class]: the overloads,
    then the implementation when it is asked for. *)
Definition declarations (self : generator) (include_implementation : bool)
    (implementation_body : option str) : result (list stmt) :=
  functions <- append_overloads self (mapping self) [] ;;
  if include_implementation then
    impl_func <- _create_implementation_function self implementation_body ;;
    Returns (functions ++ [impl_func])
  else Returns functions.

(** [generate] up to [ast.Module(body=functions, type_ignores=[])]. *)
Definition generate_module (self : generator) (include_implementation : bool)
    (implementation_body : option str) : result module_ :=
  functions <- declarations self include_implementation implementation_body ;;
  Returns (Module functions []).

Definition generate (self : generator) (include_implementation : bool)
    (implementation_body : option str) : result str :=
  module <- generate_module self include_implementation implementation_body ;;
  Returns (ast_unparse module).

Definition generate_with_imports (self : generator)
    (include_implementation : bool) (implementation_body : option str)
    (extra_imports : option (list str)) : result str :=
  let imports := [py "from typing import overload, Literal"] in
  let imports :=
    match extra_imports with
    | Some (i :: more) => imports ++ i :: more
    | _ => imports
    end in
  code <- generate self include_implementation implementation_body ;;
  Returns (join [NEWLINE] imports ++ [NEWLINE; NEWLINE; NEWLINE] ++ code).

(** ** [ClassMethodOverloadGenerator] *)

Record class_generator := {
  super : generator;
  class_name : str
}.

Definition ClassMethodOverloadGenerator (name : str) (a : init_args)
  : class_generator :=
  let self := OverloadGenerator a in
  {| super := set_has_self true self; class_name := name |}.

Definition generate_class_module (self : class_generator)
    (include_implementation : bool) (implementation_body : option str)
    (include_docstring : bool) : result module_ :=
  methods <-
    declarations (super self) include_implementation implementation_body ;;
  let class_body := [] in
  let class_body :=
    if include_docstring
    then class_body
           ++ [Expr (Constant (CStr (class_name self ++ [SPACE; 31867%N])))]
    else class_body in
  let class_body := class_body ++ methods in
  let class_def := ClassDef (class_name self) [] [] class_body [] in
  Returns (Module [class_def] []).

Definition generate_class (self : class_generator)
    (include_implementation : bool) (implementation_body : option str)
    (include_docstring : bool) : result str :=
  module <- generate_class_module self include_implementation
              implementation_body include_docstring ;;
  Returns (ast_unparse module).

End Generation.

(** ** Type nodes

    A type expression as a base name applied to an ordered list of argument
    type expressions. *)

Inductive TypeNode := Node (base : str) (arguments : list TypeNode).

(** The syntax tree [_create_type_annotation] builds for a type node: a
    [Name] without arguments, a [Subscript] whose slice is the argument
    itself for one argument and a [Tuple] for more than one. *)
Fixpoint to_ast (n : TypeNode) : expr :=
  match n with
  | Node base arguments =>
      match arguments with
      | [] => Name base
      | [a] => Subscript (Name base) (to_ast a)
      | _ => Subscript (Name base) (Tuple (map to_ast arguments))
      end
  end.

Fixpoint all_some {A} (l : list (option A)) : option (list A) :=
  match l with
  | [] => Some []
  | x :: r =>
      match x, all_some r with
      | Some a, Some s => Some (a :: s)
      | _, _ => None
      end
  end.

(** The type node a syntax tree of that shape stands for. *)
Fixpoint type_node (e : expr) : option TypeNode :=
  match e with
  | Name id => Some (Node id [])
  | Subscript (Name id) (Tuple elts) =>
      match all_some (map type_node elts) with
      | Some (a :: b :: r) => Some (Node id (a :: b :: r))
      | _ => None
      end
  | Subscript (Name id) s =>
      match type_node s with
      | Some a => Some (Node id [a])
      | None => None
      end
  | _ => None
  end.

(** Modelled from the spec: the serializer of type nodes, which the source
    takes from Python's [ast.unparse] and which is not among the source
    files.  A node without arguments is its bare base, a node with arguments
    is the base followed by the bracketed arguments separated by a comma and
    a space, in the bracket syntax of the code. *)
Fixpoint serialize (n : TypeNode) : str :=
  match n with
  | Node base [] => base
  | Node base arguments =>
      base ++ [LBRACKET] ++ join [COMMA; SPACE] (map serialize arguments)
           ++ [RBRACKET]
  end.

(** A character that may occur in a base name: no whitespace, no bracket, no
    comma.  Python identifiers and dotted names are made of such. *)
Definition base_char (c : char) : bool :=
  negb (isspace c || (c =? LBRACKET) || (c =? RBRACKET) || (c =? COMMA))%N.

Definition base_name (b : str) : bool :=
  match b with
  | [] => false
  | _ :: _ => forallb base_char b
  end.

Fixpoint well_formed (n : TypeNode) : bool :=
  match n with
  | Node base arguments => base_name base && forallb well_formed arguments
  end.

(** Nesting depth of a node: 0 for a node without arguments. *)
Fixpoint nesting (n : TypeNode) : nat :=
  match n with
  | Node _ arguments => fold_right (fun a d => Nat.max (S (nesting a)) d) 0%nat arguments
  end.

(** ASCII identifiers: a letter or underscore, then letters, digits and
    underscores. *)
Definition ident_start (c : char) : bool :=
  ((65 <=? c) && (c <=? 90) || (97 <=? c) && (c <=? 122) || (c =? 95))%N.

Definition ident_char (c : char) : bool :=
  (ident_start c || (48 <=? c) && (c <=? 57))%N.

Definition isidentifier (s : str) : bool :=
  match s with
  | [] => false
  | c :: r => ident_start c && forallb ident_char r
  end.

(** ** Auxiliary notions for the proofs about the scanning loop *)

(** Walking over [w] from depth [d] without meeting a comma at depth 0: the
    depth reached. *)
Fixpoint walk (d : Z) (w : str) : option Z :=
  match w with
  | [] => Some d
  | c :: r =>
      if (c =? LBRACKET)%N then walk (d + 1) r
      else if (c =? RBRACKET)%N then walk (d - 1) r
      else if ((c =? COMMA)%N && (d =? 0)%Z)%bool then None
      else walk d r
  end.

(** The segments the argument text of a serialized node falls into once its
    closing brackets are stripped: the serialized arguments, the last one
    without its own closing brackets. *)
Fixpoint segments (l : list TypeNode) : list str :=
  match l with
  | [] => []
  | [a] => [rstrip_brackets (serialize a)]
  | a :: r => serialize a :: segments r
  end.

(** A text on which the parser meets a bracket group without argument: after
    the opening bracket of the text, or of a segment it descends into, there
    is nothing but closing brackets. *)
Inductive empty_group : str -> Prop :=
| empty_here s base args :
    split_first LBRACKET s = Some (base, args) ->
    rstrip_brackets args = [] ->
    empty_group s
| empty_inside s base args seg :
    split_first LBRACKET s = Some (base, args) ->
    In seg (split_args (rstrip_brackets args)) ->
    empty_group seg ->
    empty_group s.

(** The loop never leaves both [arg_list] and [current] empty once it has
    read a character. *)
Definition busy (st : scan_state) : Prop :=
  arg_list st <> [] \/ current st <> [].

(** The accessors of a function declaration. *)
Definition is_function (s : stmt) : bool :=
  match s with
  | FunctionDef _ _ _ _ _ | AsyncFunctionDef _ _ _ _ _ => true
  | _ => false
  end.

Definition stmt_name (s : stmt) : str :=
  match s with
  | FunctionDef n _ _ _ _ | AsyncFunctionDef n _ _ _ _ => n
  | ClassDef n _ _ _ _ => n
  | _ => []
  end.

Definition stmt_args (s : stmt) : list arg :=
  match s with
  | FunctionDef _ a _ _ _ | AsyncFunctionDef _ a _ _ _ => args a
  | _ => []
  end.

Definition stmt_body (s : stmt) : list stmt :=
  match s with
  | FunctionDef _ _ b _ _ | AsyncFunctionDef _ _ b _ _ => b
  | ClassDef _ _ _ b _ => b
  | _ => []
  end.

Definition stmt_decorators (s : stmt) : list expr :=
  match s with
  | FunctionDef _ _ _ d _ | AsyncFunctionDef _ _ _ d _ => d
  | ClassDef _ _ _ _ d => d
  | _ => []
  end.

Definition stmt_returns (s : stmt) : option expr :=
  match s with
  | FunctionDef _ _ _ _ r | AsyncFunctionDef _ _ _ _ r => Some r
  | _ => None
  end.

Definition is_async_def (s : stmt) : bool :=
  match s with
  | AsyncFunctionDef _ _ _ _ _ => true
  | _ => false
  end.

(** ** Notions for the statements about generation *)

Definition returnsb {A} (r : result A) : bool :=
  match r with
  | Returns _ => true
  | Raises _ => false
  end.

(** Every type expression an overload is built from is parsed without an
    exception: the types of the additional parameters and the return type
    resolved for each mapping value. *)
Definition types_parse (self : generator) : bool :=
  forallb (fun p => returnsb (_create_type_annotation (snd p)))
    (additional_params self)
  && forallb (fun kv => returnsb (_create_type_annotation
                                    (_get_return_type_name self (snd kv))))
       (mapping self).

(** The same for the implementation declaration: the fallback type is parsed
    and [ast.parse] accepts the text of the body, when there is one. *)
Definition implementation_parses (ast_parse : str -> result module_)
    (self : generator) (implementation_body : option str) : bool :=
  returnsb (_create_type_annotation (return_type_fallback self))
  && match implementation_body with
     | Some (c :: code) => returnsb (ast_parse (c :: code))
     | _ => true
     end.

Definition generation_parses (ast_parse : str -> result module_)
    (self : generator) (include_implementation : bool)
    (implementation_body : option str) : bool :=
  types_parse self
  && (if include_implementation
      then implementation_parses ast_parse self implementation_body
      else true).

(** One round of the loop over the additional parameters, and one round of
    the loop over the mapping. *)
Definition param_arg (p : str * str) : result arg :=
  t <- _create_type_annotation (snd p) ;;
  Returns {| arg_name := fst p; annotation := Some t |}.

Definition overload_entry (self : generator) (kv : pyobj * pyobj)
  : result stmt :=
  _create_overload_function self (py_str (fst kv))
    (_get_return_type_name self (snd kv)).

Definition receiver (self : generator) : list arg :=
  if has_self self then [{| arg_name := py "self"; annotation := None |}]
  else [].

(** The parameter that follows the receiver, when there is one. *)
Definition discriminant (self : generator) (f : stmt) : option arg :=
  nth_error (stmt_args f) (if has_self self then 1 else 0)%nat.

(** [f] is the overload declared for [key]: it bears the function name and
    the overload marker, its body is the placeholder and its discriminant is
    narrowed to the literal [str(key)]. *)
Definition overload_of (self : generator) (key : pyobj) (f : stmt) : Prop :=
  is_function f = true
  /\ stmt_name f = function_name self
  /\ stmt_decorators f = [Name (py "overload")]
  /\ stmt_body f = placeholder
  /\ discriminant self f
     = Some {| arg_name := key_param self;
               annotation := Some (_create_literal_annotation (py_str key)) |}.

(** [f] starts with the receiver [self], which bears no annotation. *)
Definition leading_self (f : stmt) : Prop :=
  is_function f = true
  /\ hd_error (stmt_args f)
     = Some {| arg_name := py "self"; annotation := None |}.

(** Stand-ins for the two library functions where a concrete run needs
    them: an [ast.parse] that rejects every text and an [ast.unparse] that
    prints nothing. *)
Definition reject_all : str -> result module_ := fun _ => Raises SyntaxError.
Definition print_nothing : module_ -> str := fun _ => [].


(** ** The convenience functions and the client script *)

Section Convenience.

Variable ast_parse : str -> result module_.
Variable ast_unparse : module_ -> str.

(** [generate_overloads(function_name, mapping, **kwargs)] *)
Definition generate_overloads (kwargs : init_args) : result str :=
  let generator := OverloadGenerator kwargs in
  generate ast_parse ast_unparse generator false None.

(** [generate_overloads_with_imports(function_name, mapping, **kwargs)] *)
Definition generate_overloads_with_imports (kwargs : init_args)
  : result str :=
  let generator := OverloadGenerator kwargs in
  generate_with_imports ast_parse ast_unparse generator false None None.





End Convenience.


(** ** Further notions about type texts *)

(** A node all of whose base names are free of leading and trailing
    whitespace. *)
Inductive stripped_node : TypeNode -> Prop :=
| stripped_intro base arguments :
    strip base = base ->
    Forall stripped_node arguments ->
    stripped_node (Node base arguments).

(** The text of a node written with the blanks [ws] after each comma:
    [ws = []] is the compact form ['dict[str,Any]']. *)
Fixpoint serialize_with (ws : str) (n : TypeNode) : str :=
  match n with
  | Node base [] => base
  | Node base arguments =>
      base ++ [LBRACKET]
           ++ join (COMMA :: ws) (map (serialize_with ws) arguments)
           ++ [RBRACKET]
  end.

Fixpoint segments_with (ws : str) (l : list TypeNode) : list str :=
  match l with
  | [] => []
  | [a] => [rstrip_brackets (serialize_with ws a)]
  | a :: r => serialize_with ws a :: segments_with ws r
  end.

(** An additional parameter whose type text has a bracket group without
    argument, and a mapping value whose resolved return type has one. *)
Definition bad_param (p : str * str) : Prop := empty_group (snd p).

Definition bad_return (self : generator) (kv : pyobj * pyobj) : Prop :=
  empty_group (_get_return_type_name self (snd kv)).

(** The annotation an overload puts on its discriminant. *)
Definition literal_arg (self : generator) (key : pyobj) : arg :=
  {| arg_name := key_param self;
     annotation := Some (_create_literal_annotation (py_str key)) |}.

(** [generate] builds all its overloads: the loop over the mapping has no
    round, or no type text it parses has a bracket group without argument. *)
Definition overloads_complete (self : generator) : Prop :=
  mapping self = []
  \/ (Forall (fun p => ~ bad_param p) (additional_params self)
      /\ Forall (fun kv => ~ bad_return self kv) (mapping self)).

(** The implementation declaration is built: [ast.parse] accepts the body
    text when there is a non-empty one, and neither the type text of an
    additional parameter nor the fallback type has a bracket group without
    argument. *)
Definition implementation_completes (ast_parse : str -> result module_)
    (self : generator) (implementation_body : option str) : Prop :=
  match implementation_body with
  | Some (c :: code) => exists body_module,
      ast_parse (c :: code) = Returns body_module
  | _ => True
  end
  /\ Forall (fun p => ~ bad_param p) (additional_params self)
  /\ ~ empty_group (return_type_fallback self).

Definition generation_completes (ast_parse : str -> result module_)
    (self : generator) (include_implementation : bool)
    (implementation_body : option str) : Prop :=
  overloads_complete self
  /\ (include_implementation = true ->
      implementation_completes ast_parse self implementation_body).

(** ** Example inputs *)

(** [Map[String, List[Int]]] as a type node. *)
Definition map_string_list_int : TypeNode :=
  Node (py "Map")
    [Node (py "String") []; Node (py "List") [Node (py "Int") []]].

Definition no_arguments (function_name : str)
    (mapping : list (pyobj * pyobj)) : init_args :=
  {| init_function_name := function_name;
     init_mapping := mapping;
     init_key_param := None;
     init_additional_params := None;
     init_is_async := None;
     init_has_self := None;
     init_return_type_from_mapping := None;
     init_return_type_fallback := None |}.

(** [OverloadGenerator('f', {'a': 'x[]'})] *)
Definition empty_group_generator : generator :=
  OverloadGenerator
    (no_arguments (py "f") [(PyStr (py "a"), PyStr (py "x[]"))]).

(** [OverloadGenerator('f', {'a': 'int', 'b': 'list[]', 'c': 'str'})] *)
Definition abc_malformed_generator : generator :=
  OverloadGenerator
    (no_arguments (py "f")
       [(PyStr (py "a"), PyStr (py "int"));
        (PyStr (py "b"), PyStr (py "list[]"));
        (PyStr (py "c"), PyStr (py "str"))]).

(** [OverloadGenerator('f', {'a': 'int', 'b': 'list[int]', 'c': 'str'})] *)
Definition abc_generator : generator :=
  OverloadGenerator
    (no_arguments (py "f")
       [(PyStr (py "a"), PyStr (py "int"));
        (PyStr (py "b"), PyStr (py "list[int]"));
        (PyStr (py "c"), PyStr (py "str"))]).

(** [OverloadGenerator('f', {1: 'int', 'two': object()})] *)
Definition mixed_generator : generator :=
  OverloadGenerator
    (no_arguments (py "f")
       [(PyInt 1, PyStr (py "int"));
        (PyStr (py "two"), PyOther (py "<object object at 0x7f>"))]).

(** The generator of the scenario: mapping
    [{'json': 'Dict[String, Any]', 'xml': 'String'}], key parameter
    ['format'], one additional parameter [('data', 'Bytes')], not
    asynchronous, no receiver, return types not resolved from the mapping. *)
Definition scenario_generator (function_name fallback : str) : generator :=
  {| function_name := function_name;
     mapping := [(PyStr (py "json"), PyStr (py "Dict[String, Any]"));
                 (PyStr (py "xml"), PyStr (py "String"))];
     key_param := py "format";
     additional_params := [(py "data", py "Bytes")];
     is_async := false;
     has_self := false;
     return_type_from_mapping := false;
     return_type_fallback := fallback |}.

Definition scenario_arguments (key : str) : arguments :=
  {| posonlyargs := [];
     args := [{| arg_name := py "format";
                 annotation :=
                   Some (Subscript (Name (py "Literal"))
                           (Constant (CStr key))) |};
              {| arg_name := py "data";
                 annotation := Some (Name (py "Bytes")) |}];
     kwonlyargs := []; kw_defaults := []; defaults := [] |}.

(** [ClassMethodOverloadGenerator('C', 'f', {'a': 'int'}, has_self=False)] *)
Definition class_arguments : init_args :=
  {| init_function_name := py "f";
     init_mapping := [(PyStr (py "a"), PyStr (py "int"))];
     init_key_param := None;
     init_additional_params := None;
     init_is_async := None;
     init_has_self := Some false;
     init_return_type_from_mapping := None;
     init_return_type_fallback := None |}.

(** [OverloadGenerator('get_resource', {'pet': Pet, 1: 'dict[str, Any]'},
    additional_params=[('id', 'int')], is_async=True)] *)
Definition async_generator : generator :=
  OverloadGenerator
    {| init_function_name := py "get_resource";
       init_mapping :=
         [(PyStr (py "pet"), PyType (py "Pet") (py "<class 'm.Pet'>"));
          (PyInt 1, PyStr (py "dict[str, Any]"))];
       init_key_param := None;
       init_additional_params := Some [(py "id", py "int")];
       init_is_async := Some true;
       init_has_self := None;
       init_return_type_from_mapping := None;
       init_return_type_fallback := None |}.


(** * Properties *)

(** ** Stripping and splitting *)

Lemma rstrip_by_app p x y :
  rstrip_by p (x ++ y) =
  match rstrip_by p y with
  | [] => rstrip_by p x
  | _ :: _ => x ++ rstrip_by p y
  end.
Proof.
  induction x as [|a x IH]; simpl.
  - destruct (rstrip_by p y); reflexivity.
  - rewrite IH. destruct (rstrip_by p y) as [|c l]; [reflexivity|].
    destruct x; reflexivity.
Qed.

Lemma rstrip_by_keep p x c :
  p c = false -> rstrip_by p (x ++ [c]) = x ++ [c].
Proof.
  intros H. rewrite rstrip_by_app. simpl. rewrite H. reflexivity.
Qed.

Lemma rstrip_by_drop p x c :
  p c = true -> rstrip_by p (x ++ [c]) = rstrip_by p x.
Proof.
  intros H. rewrite rstrip_by_app. simpl. rewrite H. reflexivity.
Qed.

Lemma rstrip_by_length p s : (length (rstrip_by p s) <= length s)%nat.
Proof.
  induction s as [|c s IH]; simpl; [lia|].
  destruct (rstrip_by p s); [destruct (p c)|]; simpl in *; lia.
Qed.

Lemma lstrip_by_length p s : (length (lstrip_by p s) <= length s)%nat.
Proof.
  induction s as [|c s IH]; simpl; [lia|].
  destruct (p c); simpl; lia.
Qed.

Lemma strip_length s : (length (strip s) <= length s)%nat.
Proof.
  unfold strip.
  pose proof (lstrip_by_length isspace (rstrip_by isspace s)).
  pose proof (rstrip_by_length isspace s). lia.
Qed.

Lemma rstrip_by_prefix p s : exists t, s = rstrip_by p s ++ t.
Proof.
  induction s as [|c s [t IH]]; simpl.
  - exists []. reflexivity.
  - destruct (rstrip_by p s) as [|d l] eqn:E.
    + destruct (p c).
      * exists (c :: s). reflexivity.
      * exists t. simpl in IH. rewrite IH at 1. reflexivity.
    + exists t. rewrite IH at 1. reflexivity.
Qed.

Lemma rstrip_by_idem p s : rstrip_by p (rstrip_by p s) = rstrip_by p s.
Proof.
  induction s as [|c s IH]; simpl; [reflexivity|].
  destruct (rstrip_by p s) as [|d l] eqn:E.
  - destruct (p c) eqn:Hc; simpl; [reflexivity|]. rewrite Hc. reflexivity.
  - change (rstrip_by p (c :: d :: l)) with
      (match rstrip_by p (d :: l) with
       | [] => if p c then [] else [c]
       | r' => c :: r'
       end).
    rewrite IH. reflexivity.
Qed.

Lemma split_first_some sep s b a :
  split_first sep s = Some (b, a) -> s = b ++ sep :: a.
Proof.
  revert b. induction s as [|c s IH]; simpl; intros b H; [discriminate|].
  destruct (N.eqb_spec c sep) as [->|_].
  - injection H as <- <-. reflexivity.
  - destruct (split_first sep s) as [[b' a']|]; [|discriminate].
    injection H as <- <-. simpl. f_equal. apply IH. reflexivity.
Qed.

Lemma split_first_app sep b a :
  forallb (fun c => negb (c =? sep)%N) b = true ->
  split_first sep (b ++ sep :: a) = Some (b, a).
Proof.
  induction b as [|c b IH]; simpl; intros H.
  - rewrite N.eqb_refl. reflexivity.
  - apply andb_true_iff in H as [Hc Hb].
    apply negb_true_iff in Hc. rewrite Hc, (IH Hb). reflexivity.
Qed.

Lemma split_first_none sep s :
  forallb (fun c => negb (c =? sep)%N) s = true ->
  split_first sep s = None.
Proof.
  induction s as [|c s IH]; simpl; intros H; [reflexivity|].
  apply andb_true_iff in H as [Hc Hs].
  apply negb_true_iff in Hc. rewrite Hc, (IH Hs). reflexivity.
Qed.

(** ** The scanning loop *)

Lemma scan_walk w : forall st d,
  walk (depth st) w = Some d ->
  fold_left scan_step w st =
  {| arg_list := arg_list st; depth := d; current := current st ++ w |}.
Proof.
  induction w as [|c w IH]; simpl; intros st d H.
  - injection H as <-. rewrite app_nil_r. destruct st; reflexivity.
  - unfold scan_step at 2.
    destruct (c =? LBRACKET)%N.
    { rewrite (IH _ d) by exact H. simpl. rewrite <- app_assoc. reflexivity. }
    destruct (c =? RBRACKET)%N.
    { rewrite (IH _ d) by exact H. simpl. rewrite <- app_assoc. reflexivity. }
    destruct ((c =? COMMA)%N && (depth st =? 0)%Z)%bool; [discriminate|].
    rewrite (IH _ d) by exact H. simpl. rewrite <- app_assoc. reflexivity.
Qed.

Lemma walk_app u v d :
  walk d (u ++ v) =
  match walk d u with
  | Some d' => walk d' v
  | None => None
  end.
Proof.
  revert d. induction u as [|c u IH]; simpl; intros d; [reflexivity|].
  destruct (c =? LBRACKET)%N; [apply IH|].
  destruct (c =? RBRACKET)%N; [apply IH|].
  destruct ((c =? COMMA)%N && (d =? 0)%Z)%bool; [reflexivity|apply IH].
Qed.

Lemma walk_prefix u v d d' :
  walk d (u ++ v) = Some d' -> exists d'', walk d u = Some d''.
Proof.
  rewrite walk_app. destruct (walk d u) as [x|]; [eauto|discriminate].
Qed.

Lemma base_char_spec c :
  base_char c = true ->
  isspace c = false /\ (c =? LBRACKET)%N = false
  /\ (c =? RBRACKET)%N = false /\ (c =? COMMA)%N = false.
Proof.
  unfold base_char. intros H. apply negb_true_iff in H.
  apply orb_false_iff in H as [H H3].
  apply orb_false_iff in H as [H H2].
  apply orb_false_iff in H as [H H1]. auto.
Qed.

Lemma walk_base b d : forallb base_char b = true -> walk d b = Some d.
Proof.
  induction b as [|c b IH]; simpl; intros H; [reflexivity|].
  apply andb_true_iff in H as [Hc Hb].
  apply base_char_spec in Hc as (_ & -> & -> & ->). simpl. auto.
Qed.

Lemma scan_step_busy st c : busy (scan_step st c).
Proof.
  unfold busy, scan_step.
  destruct (c =? LBRACKET)%N; [right; simpl; destruct (current st); discriminate|].
  destruct (c =? RBRACKET)%N; [right; simpl; destruct (current st); discriminate|].
  destruct ((c =? COMMA)%N && (depth st =? 0)%Z)%bool; simpl.
  - left. destruct (arg_list st); discriminate.
  - right. destruct (current st); discriminate.
Qed.

Lemma fold_scan_busy w : forall st, busy st -> busy (fold_left scan_step w st).
Proof.
  induction w as [|c w IH]; simpl; intros st H; [exact H|].
  apply IH, scan_step_busy.
Qed.

Lemma split_args_nil args : split_args args = [] <-> args = [].
Proof.
  split; [|intros ->; reflexivity].
  destruct args as [|c w]; [reflexivity|]. unfold split_args. simpl.
  pose proof (fold_scan_busy w _ (scan_step_busy scan_init c)) as H.
  unfold scan_finish. destruct H as [H|H].
  - destruct (current _); [intros E; contradiction|].
    intros E. apply app_eq_nil in E as [_ E]. discriminate.
  - destruct (current _); [contradiction|].
    intros E. apply app_eq_nil in E as [_ E]. discriminate.
Qed.

(** Every segment is no longer than the text it is cut from. *)
Lemma fold_scan_length w : forall st L,
  Forall (fun seg => length seg <= L)%nat (arg_list st) ->
  (length (current st) + length w <= L)%nat ->
  let st' := fold_left scan_step w st in
  Forall (fun seg => length seg <= L)%nat (arg_list st')
  /\ (length (current st') <= L)%nat.
Proof.
  induction w as [|c w IH]; simpl; intros st L Ha Hc.
  - split; [exact Ha|lia].
  - apply IH; unfold scan_step.
    + destruct (c =? LBRACKET)%N; [exact Ha|].
      destruct (c =? RBRACKET)%N; [exact Ha|].
      destruct ((c =? COMMA)%N && (depth st =? 0)%Z)%bool; [|exact Ha].
      simpl. apply Forall_app. split; [exact Ha|].
      constructor; [|constructor].
      pose proof (strip_length (current st)). lia.
    + destruct (c =? LBRACKET)%N; [simpl; rewrite length_app; simpl; lia|].
      destruct (c =? RBRACKET)%N; [simpl; rewrite length_app; simpl; lia|].
      destruct ((c =? COMMA)%N && (depth st =? 0)%Z)%bool;
        simpl; [lia|rewrite length_app; simpl; lia].
Qed.

Lemma split_args_length args seg :
  In seg (split_args args) -> (length seg <= length args)%nat.
Proof.
  unfold split_args, scan_finish.
  destruct (fold_scan_length args scan_init (length args))
    as [Ha Hc]; [constructor|simpl; lia|].
  cbv zeta in Ha, Hc. rewrite Forall_forall in Ha.
  destruct (current _) as [|c l] eqn:E; [apply Ha|].
  intros H. apply in_app_or in H as [H|[<-|[]]]; [apply Ha, H|].
  pose proof (strip_length (c :: l)). simpl in *. lia.
Qed.

(** ** The bound of the parser is always enough *)

Lemma comprehension_fuel_agree {A B} (f g : A -> option (result B)) l :
  (forall x, In x l -> f x = g x /\ f x <> None) ->
  comprehension_fuel f l = comprehension_fuel g l
  /\ comprehension_fuel f l <> None.
Proof.
  induction l as [|x l IH]; simpl; intros H; [split; congruence|].
  destruct (H x (or_introl eq_refl)) as [<- Hx].
  destruct IH as [<- Hl]; [intros y Hy; apply H; right; exact Hy|].
  destruct (f x) as [[y|e]|]; [|split; congruence|contradiction].
  destruct (comprehension_fuel f l) as [[ys|e]|];
    [split; congruence|split; congruence|contradiction].
Qed.

Lemma comprehension_fuel_some {A B} (f : A -> option (result B))
    (h : A -> result B) l :
  (forall x, In x l -> f x = Some (h x)) ->
  comprehension_fuel f l = Some (comprehension h l).
Proof.
  induction l as [|x l IH]; simpl; intros H; [reflexivity|].
  rewrite (H x (or_introl eq_refl)), IH
    by (intros y Hy; apply H; right; exact Hy).
  destruct (h x); simpl; [|reflexivity].
  destruct (comprehension h l); reflexivity.
Qed.

Lemma segment_shorter s base args seg :
  split_first LBRACKET s = Some (base, args) ->
  In seg (split_args (rstrip_brackets args)) ->
  (length seg < length s)%nat.
Proof.
  intros Hs Hin. apply split_first_some in Hs. subst s.
  apply split_args_length in Hin.
  pose proof (rstrip_by_length (N.eqb RBRACKET) args).
  unfold rstrip_brackets in Hin. rewrite length_app. simpl. lia.
Qed.

Lemma parse_fuel_stable n : forall m s,
  (length s < n)%nat -> (length s < m)%nat ->
  parse_fuel n s = parse_fuel m s /\ parse_fuel n s <> None.
Proof.
  induction n as [|n IH]; intros m s Hn Hm; [lia|].
  destruct m as [|m]; [lia|]. simpl.
  destruct (split_first LBRACKET s) as [[base args]|] eqn:Hs;
    [|split; congruence].
  assert (Hseg : forall seg, In seg (split_args (rstrip_brackets args)) ->
            parse_fuel n seg = parse_fuel m seg /\ parse_fuel n seg <> None).
  { intros seg Hin. pose proof (segment_shorter _ _ _ _ Hs Hin). apply IH; lia. }
  destruct (1 <? length (split_args (rstrip_brackets args)))%nat.
  - destruct (comprehension_fuel_agree _ _ _ Hseg) as [<- Hne].
    destruct (comprehension_fuel (parse_fuel n) _) as [[xs|e]|];
      [split; congruence|split; congruence|contradiction].
  - destruct (split_args (rstrip_brackets args)) as [|a l];
      [split; congruence|].
    destruct (Hseg a (or_introl eq_refl)) as [<- Hne].
    destruct (parse_fuel n a) as [[x|e]|];
      [split; congruence|split; congruence|contradiction].
Qed.

Lemma parse_fuel_enough n s :
  (length s < n)%nat -> parse_fuel n s = Some (_create_type_annotation s).
Proof.
  intros H. unfold _create_type_annotation.
  destruct (parse_fuel_stable n (S (length s)) s H) as [<- Hne]; [lia|].
  destruct (parse_fuel n s); [reflexivity|contradiction].
Qed.

(** The equation of the source function. *)
Lemma _create_type_annotation_eq type_str :
  _create_type_annotation type_str =
  match split_first LBRACKET type_str with
  | Some (base, args) =>
      let arg_list := split_args (rstrip_brackets args) in
      let value := Name (strip base) in
      if (1 <? length arg_list)%nat then
        xs <- comprehension _create_type_annotation arg_list ;;
        Returns (Subscript value (Tuple xs))
      else
        match arg_list with
        | [] => Raises IndexError
        | a :: _ =>
            x <- _create_type_annotation a ;; Returns (Subscript value x)
        end
  | None => Returns (Name (strip type_str))
  end.
Proof.
  unfold _create_type_annotation at 1. simpl.
  destruct (split_first LBRACKET type_str) as [[base args]|] eqn:Hs;
    [|reflexivity].
  assert (Hseg : forall seg, In seg (split_args (rstrip_brackets args)) ->
            parse_fuel (length type_str) seg
            = Some (_create_type_annotation seg)).
  { intros seg Hin. apply parse_fuel_enough, (segment_shorter _ _ _ _ Hs Hin). }
  cbv zeta.
  destruct (1 <? length (split_args (rstrip_brackets args)))%nat.
  - rewrite (comprehension_fuel_some _ _ _ Hseg).
    destruct (comprehension _ _); reflexivity.
  - destruct (split_args (rstrip_brackets args)) as [|a l]; [reflexivity|].
    rewrite (Hseg a (or_introl eq_refl)).
    destruct (_create_type_annotation a); reflexivity.
Qed.

(** ** Outcome of the parser *)

Lemma comprehension_outcome {A B} (f : A -> result B) (Q : A -> Prop) l :
  (forall x, In x l ->
     (Q x /\ f x = Raises IndexError)
     \/ (~ Q x /\ exists y, f x = Returns y)) ->
  (Exists Q l /\ comprehension f l = Raises IndexError)
  \/ (Forall (fun x => ~ Q x) l /\ exists ys, comprehension f l = Returns ys).
Proof.
  induction l as [|x l IH]; simpl; intros H.
  - right. split; [constructor|eexists; reflexivity].
  - destruct (H x (or_introl eq_refl)) as [[Hq Hx]|[Hq [y Hx]]]; rewrite Hx.
    + left. split; [left; exact Hq|reflexivity].
    + destruct IH as [[He Hl]|[Hf [ys Hl]]].
      * intros z Hz. apply H. right. exact Hz.
      * left. simpl. rewrite Hl. split; [right; exact He|reflexivity].
      * right. simpl. rewrite Hl. split; [constructor; assumption|].
        eexists; reflexivity.
Qed.

Lemma parse_outcome_bounded n : forall s, (length s < n)%nat ->
  (empty_group s /\ _create_type_annotation s = Raises IndexError)
  \/ (~ empty_group s /\ exists e, _create_type_annotation s = Returns e).
Proof.
  induction n as [|n IH]; intros s Hn; [lia|].
  rewrite _create_type_annotation_eq.
  destruct (split_first LBRACKET s) as [[base args]|] eqn:Hs.
  2:{ right. split; [|eexists; reflexivity].
      intros H; inversion H; congruence. }
  cbv zeta.
  assert (Hseg : forall seg, In seg (split_args (rstrip_brackets args)) ->
     (empty_group seg /\ _create_type_annotation seg = Raises IndexError)
     \/ (~ empty_group seg
         /\ exists e, _create_type_annotation seg = Returns e)).
  { intros seg Hin. pose proof (segment_shorter _ _ _ _ Hs Hin).
    apply IH. lia. }
  assert (Hinv : empty_group s ->
     rstrip_brackets args = []
     \/ Exists empty_group (split_args (rstrip_brackets args))).
  { intros H. inversion H as [s' b a E1 E2|s' b a seg E1 E2 E3]; subst s'.
    - rewrite Hs in E1. injection E1 as <- <-. left. exact E2.
    - rewrite Hs in E1. injection E1 as <- <-. right.
      apply Exists_exists. exists seg. split; assumption. }
  destruct (1 <? length (split_args (rstrip_brackets args)))%nat eqn:Hlen.
  - destruct (comprehension_outcome _ _ _ Hseg) as [[He Hl]|[Hf [ys Hl]]];
      rewrite Hl; simpl.
    + left. split; [|reflexivity].
      apply Exists_exists in He as (seg & Hin & He).
      exact (empty_inside _ _ _ _ Hs Hin He).
    + right. split; [|eexists; reflexivity].
      intros H. destruct (Hinv H) as [E|E].
      * rewrite E in Hlen. discriminate.
      * apply Exists_exists in E as (seg & Hin & He).
        rewrite Forall_forall in Hf. exact (Hf seg Hin He).
  - destruct (split_args (rstrip_brackets args)) as [|a l] eqn:El.
    + left. split; [|reflexivity].
      apply (empty_here _ _ _ Hs). apply split_args_nil. exact El.
    + assert (l = []) as ->.
      { destruct l; [reflexivity|]. simpl in Hlen. discriminate. }
      destruct (Hseg a (or_introl eq_refl)) as [[He Ha]|[He [e Ha]]];
        rewrite Ha; simpl.
      * left. split; [|reflexivity].
        apply (empty_inside _ _ _ a Hs); [rewrite El; left; reflexivity|].
        exact He.
      * right. split; [|eexists; reflexivity].
        intros H. destruct (Hinv H) as [E|E].
        -- apply split_args_nil in E. congruence.
        -- inversion E as [? ? E1|? ? E1]; subst; [contradiction|].
           inversion E1.
Qed.

Lemma parse_outcome s :
  (empty_group s /\ _create_type_annotation s = Raises IndexError)
  \/ (~ empty_group s /\ exists e, _create_type_annotation s = Returns e).
Proof. apply (parse_outcome_bounded (S (length s))). lia. Qed.

(** ** Serialized type nodes *)

Lemma TypeNode_induction (P : TypeNode -> Prop) :
  (forall base arguments, Forall P arguments -> P (Node base arguments)) ->
  forall n, P n.
Proof.
  intros H. fix IH 1. intros [base arguments]. apply H.
  induction arguments as [|a l IHl]; constructor; [apply IH|exact IHl].
Qed.

Lemma well_formed_node base arguments :
  well_formed (Node base arguments) = true ->
  base_name base = true /\ Forall (fun a => well_formed a = true) arguments.
Proof.
  simpl. intros H. apply andb_true_iff in H as [Hb Ha]. split; [exact Hb|].
  apply Forall_forall. apply forallb_forall. exact Ha.
Qed.

Lemma base_name_chars b :
  base_name b = true -> b <> [] /\ forallb base_char b = true.
Proof. destruct b; simpl; intros H; [discriminate|split; [discriminate|exact H]]. Qed.

Lemma serialize_cons base a l :
  serialize (Node base (a :: l)) =
  base ++ [LBRACKET] ++ join [COMMA; SPACE] (map serialize (a :: l))
       ++ [RBRACKET].
Proof. reflexivity. Qed.

Lemma join_cons2 sep (x y : str) r :
  join sep (x :: y :: r) = x ++ sep ++ join sep (y :: r).
Proof. reflexivity. Qed.

Lemma segments_cons2 a b r :
  segments (a :: b :: r) = serialize a :: segments (b :: r).
Proof. reflexivity. Qed.

Lemma segments_length l : length (segments l) = length l.
Proof.
  induction l as [|a [|b r] IH]; [reflexivity|reflexivity|].
  rewrite segments_cons2. simpl in *. rewrite IH. reflexivity.
Qed.

(** A serialized node starts with a character of its base. *)
Lemma serialize_head n :
  well_formed n = true ->
  exists c r, serialize n = c :: r /\ base_char c = true.
Proof.
  destruct n as [base arguments]. intros H.
  apply well_formed_node in H as [Hb _].
  destruct base as [|c b]; [discriminate|]. simpl in Hb.
  apply andb_true_iff in Hb as [Hc _].
  destruct arguments; simpl; eauto.
Qed.

Lemma rstrip_by_head p c r :
  p c = false -> exists r', rstrip_by p (c :: r) = c :: r'.
Proof.
  intros H. simpl. rewrite H. destruct (rstrip_by p r); eauto.
Qed.

Lemma rstrip_serialize_head n :
  well_formed n = true ->
  exists c r, rstrip_brackets (serialize n) = c :: r /\ base_char c = true.
Proof.
  intros H. destruct (serialize_head n H) as (c & r & -> & Hc).
  destruct (rstrip_by_head (N.eqb RBRACKET) c r) as [r' E].
  - apply base_char_spec in Hc as (_ & _ & Hc & _).
    rewrite N.eqb_sym. exact Hc.
  - exists c, r'. split; assumption.
Qed.

(** Walking over a serialized node returns to the depth it started from and
    meets no comma at depth 0. *)
Lemma walk_joined l : 
  Forall (fun a => forall d, (0 <= d)%Z -> walk d (serialize a) = Some d) l ->
  forall d, (0 < d)%Z ->
  walk d (join [COMMA; SPACE] (map serialize l)) = Some d.
Proof.
  induction 1 as [|a l Ha Hl IH]; intros d Hd; [reflexivity|].
  destruct l as [|b r]; [simpl; apply Ha; lia|].
  change (map serialize (a :: b :: r))
    with (serialize a :: serialize b :: map serialize r).
  rewrite join_cons2, walk_app, Ha by lia.
  rewrite walk_app.
  assert (walk d [COMMA; SPACE] = Some d) as ->.
  { simpl. destruct (Z.eqb_spec d 0); [lia|reflexivity]. }
  apply IH. exact Hd.
Qed.

Lemma walk_serialize n :
  well_formed n = true ->
  forall d, (0 <= d)%Z -> walk d (serialize n) = Some d.
Proof.
  induction n as [base arguments IH] using TypeNode_induction.
  intros H d Hd. apply well_formed_node in H as [Hb Ha].
  apply base_name_chars in Hb as [_ Hb].
  destruct arguments as [|a l]; [simpl; apply walk_base; exact Hb|].
  rewrite serialize_cons, walk_app, (walk_base _ _ Hb).
  change (walk d ([LBRACKET] ++ ?w)) with (walk (d + 1) w).
  rewrite walk_app, walk_joined; [simpl; f_equal; lia| |lia].
  rewrite Forall_forall in *. intros x Hx. apply IH; auto.
Qed.

(** The argument text of a serialized node without its closing brackets. *)
Lemma rstrip_joined l :
  l <> [] -> Forall (fun a => well_formed a = true) l ->
  rstrip_brackets (join [COMMA; SPACE] (map serialize l))
  = join [COMMA; SPACE] (segments l)
  /\ join [COMMA; SPACE] (segments l) <> [].
Proof.
  intros Hne H. induction H as [|a l Ha Hl IH]; [contradiction|].
  destruct l as [|b r].
  - simpl. destruct (rstrip_serialize_head a Ha) as (c & t & E & _).
    rewrite E. split; [reflexivity|discriminate].
  - destruct IH as [IH1 IH2]; [discriminate|].
    rewrite segments_cons2.
    change (map serialize (a :: b :: r))
      with (serialize a :: map serialize (b :: r)).
    remember (segments (b :: r)) as S eqn:ES.
    assert (exists s1 S', S = s1 :: S') as (s1 & S' & ->).
    { destruct r; simpl in ES; subst S; eauto. }
    remember (map serialize (b :: r)) as M eqn:EM.
    assert (exists m1 M', M = m1 :: M') as (m1 & M' & ->).
    { subst M. simpl. eauto. }
    rewrite !join_cons2. split.
    + unfold rstrip_brackets in *. rewrite rstrip_by_app.
      rewrite (rstrip_by_app _ [COMMA; SPACE]). rewrite IH1.
      destruct (join [COMMA; SPACE] (s1 :: S')) as [|x y] eqn:Ej;
        [contradiction|reflexivity].
    + destruct (serialize_head a Ha) as (c & t & -> & _). discriminate.
Qed.

Lemma rstrip_serialize_node base a l :
  well_formed (Node base (a :: l)) = true ->
  rstrip_brackets (serialize (Node base (a :: l)))
  = base ++ [LBRACKET] ++ join [COMMA; SPACE] (segments (a :: l)).
Proof.
  intros H. apply well_formed_node in H as [_ Ha].
  destruct (rstrip_joined (a :: l)) as [E Hne]; [discriminate|exact Ha|].
  rewrite serialize_cons. unfold rstrip_brackets in *.
  rewrite !app_assoc. rewrite rstrip_by_drop by reflexivity.
  rewrite rstrip_by_app, E.
  destruct (join [COMMA; SPACE] (segments (a :: l)));
    [contradiction|reflexivity].
Qed.

Lemma join_cons_ne sep (x : str) l :
  l <> [] -> join sep (x :: l) = x ++ sep ++ join sep l.
Proof. destruct l; [contradiction|reflexivity]. Qed.

Lemma segments_ne l : l <> [] -> segments l <> [].
Proof. destruct l as [|a [|b r]]; [contradiction|discriminate|discriminate]. Qed.

Lemma serialize_last n :
  well_formed n = true ->
  exists x d, serialize n = x ++ [d] /\ isspace d = false.
Proof.
  destruct n as [base [|a l]]; intros H.
  - apply well_formed_node in H as [Hb _].
    apply base_name_chars in Hb as [Hne Hb].
    destruct (exists_last Hne) as (x & d & ->). exists x, d.
    split; [reflexivity|]. rewrite forallb_app in Hb.
    apply andb_true_iff in Hb as [_ Hd]. simpl in Hd.
    rewrite andb_true_r in Hd. apply base_char_spec in Hd. tauto.
  - rewrite serialize_cons. rewrite !app_assoc.
    eexists _, RBRACKET. split; reflexivity.
Qed.

Lemma joined_segments_last l :
  l <> [] ->
  Forall (fun a => exists x d,
            rstrip_brackets (serialize a) = x ++ [d] /\ isspace d = false) l ->
  exists x d, join [COMMA; SPACE] (segments l) = x ++ [d] /\ isspace d = false.
Proof.
  intros Hne H. induction H as [|a l Ha Hl IH]; [contradiction|].
  destruct l as [|b r]; [exact Ha|].
  destruct IH as (x & d & E & Hd); [discriminate|].
  rewrite segments_cons2, join_cons_ne, E by (apply segments_ne; discriminate).
  exists (serialize a ++ [COMMA; SPACE] ++ x), d.
  rewrite <- !app_assoc. split; [reflexivity|exact Hd].
Qed.

Lemma rstrip_serialize_last n :
  well_formed n = true ->
  exists x d,
    rstrip_brackets (serialize n) = x ++ [d] /\ isspace d = false.
Proof.
  induction n as [base arguments IH] using TypeNode_induction. intros H.
  destruct arguments as [|a l].
  - apply well_formed_node in H as [Hb _].
    apply base_name_chars in Hb as [Hne Hb].
    destruct (exists_last Hne) as (x & d & ->). exists x, d.
    rewrite forallb_app in Hb. apply andb_true_iff in Hb as [_ Hd].
    simpl in Hd. rewrite andb_true_r in Hd.
    apply base_char_spec in Hd as (Hs & _ & Hr & _).
    split; [|exact Hs]. simpl. apply rstrip_by_keep.
    rewrite N.eqb_sym. exact Hr.
  - rewrite (rstrip_serialize_node _ _ _ H).
    apply well_formed_node in H as [_ Ha].
    destruct (joined_segments_last (a :: l)) as (x & d & E & Hd);
      [discriminate| |].
    + rewrite Forall_forall in *. intros y Hy. apply IH; auto.
    + rewrite E. exists (base ++ [LBRACKET] ++ x), d.
      rewrite <- !app_assoc. split; [reflexivity|exact Hd].
Qed.

Lemma lstrip_by_skip p pre s :
  forallb p pre = true -> lstrip_by p (pre ++ s) = lstrip_by p s.
Proof.
  induction pre as [|c pre IH]; simpl; intros H; [reflexivity|].
  apply andb_true_iff in H as [-> H]. apply IH, H.
Qed.

(** Stripping removes the blanks put before a text that neither starts nor
    ends with a blank, and nothing else. *)
Lemma strip_keep pre c r x d :
  forallb isspace pre = true ->
  c :: r = x ++ [d] -> base_char c = true -> isspace d = false ->
  strip (pre ++ c :: r) = c :: r.
Proof.
  intros Hpre E Hc Hd. unfold strip.
  rewrite E, app_assoc, rstrip_by_keep by exact Hd.
  rewrite <- app_assoc, <- E, lstrip_by_skip by exact Hpre.
  simpl. apply base_char_spec in Hc as [-> _]. reflexivity.
Qed.

Lemma scan_finish_current st :
  current st <> [] -> scan_finish st = arg_list st ++ [strip (current st)].
Proof.
  unfold scan_finish. destruct (current st); [contradiction|reflexivity].
Qed.

Lemma scan_separator acc cur w :
  fold_left scan_step ([COMMA; SPACE] ++ w)
    {| arg_list := acc; depth := 0; current := cur |}
  = fold_left scan_step w
      {| arg_list := acc ++ [strip cur]; depth := 0; current := [SPACE] |}.
Proof. reflexivity. Qed.

(** The loop cuts the argument text of a serialized node at the commas
    between its arguments and nowhere else. *)
Lemma scan_segments l :
  l <> [] -> Forall (fun a => well_formed a = true) l ->
  forall acc pre, forallb isspace pre = true ->
  scan_finish
    (fold_left scan_step (join [COMMA; SPACE] (segments l))
       {| arg_list := acc; depth := 0; current := pre |})
  = acc ++ segments l.
Proof.
  intros Hne H. induction H as [|a l Ha Hl IH]; [contradiction|].
  intros acc pre Hpre. destruct l as [|b r].
  - simpl join.
    destruct (rstrip_by_prefix (N.eqb RBRACKET) (serialize a)) as [t Et].
    pose proof (walk_serialize a Ha 0%Z (Z.le_refl 0)) as Hw.
    rewrite Et in Hw. apply walk_prefix in Hw as [d' Hw].
    rewrite (scan_walk _ _ d') by exact Hw. simpl current.
    destruct (rstrip_serialize_head a Ha) as (c & s & E & Hc).
    destruct (rstrip_serialize_last a Ha) as (x & d & E' & Hd).
    fold (rstrip_brackets (serialize a)). simpl segments.
    rewrite scan_finish_current; simpl.
    + rewrite E. rewrite (strip_keep pre c s x d); congruence.
    + rewrite E. destruct pre; discriminate.
  - rewrite segments_cons2, join_cons_ne by (apply segments_ne; discriminate).
    rewrite fold_left_app.
    rewrite (scan_walk (serialize a) _ 0%Z)
      by (apply walk_serialize; [exact Ha|simpl; lia]).
    simpl arg_list. simpl current. rewrite scan_separator.
    rewrite IH by (try discriminate; reflexivity).
    destruct (serialize_head a Ha) as (c & s & E & Hc).
    destruct (serialize_last a Ha) as (x & d & E' & Hd).
    rewrite E. rewrite (strip_keep pre c s x d) by congruence.
    rewrite <- app_assoc. reflexivity.
Qed.

Lemma split_args_segments l :
  l <> [] -> Forall (fun a => well_formed a = true) l ->
  split_args (join [COMMA; SPACE] (segments l)) = segments l.
Proof.
  intros Hne H. exact (scan_segments l Hne H [] [] eq_refl).
Qed.

(** ** Parsing a serialized node *)

Lemma base_no_bracket b :
  forallb base_char b = true ->
  forallb (fun c => negb (c =? LBRACKET)%N) b = true.
Proof.
  intros H. apply forallb_forall. intros c Hc.
  rewrite forallb_forall in H. apply H, base_char_spec in Hc.
  destruct Hc as (_ & -> & _). reflexivity.
Qed.

Lemma strip_base b : base_name b = true -> strip b = b.
Proof.
  intros H. apply base_name_chars in H as [Hne H].
  destruct (exists_last Hne) as (x & d & E).
  destruct b as [|c r]; [contradiction|].
  assert (Hd : isspace d = false).
  { rewrite E, forallb_app in H. apply andb_true_iff in H as [_ H].
    simpl in H. rewrite andb_true_r in H. apply base_char_spec in H. tauto. }
  simpl in H. apply andb_true_iff in H as [Hc _].
  exact (strip_keep [] c r x d eq_refl E Hc Hd).
Qed.

Lemma comprehension_segments l :
  Forall (fun n =>
    _create_type_annotation (serialize n) = Returns (to_ast n)
    /\ _create_type_annotation (rstrip_brackets (serialize n))
       = Returns (to_ast n)) l ->
  comprehension _create_type_annotation (segments l)
  = Returns (map to_ast l).
Proof.
  induction 1 as [|a l [Ha Ha'] Hl IH]; [reflexivity|].
  destruct l as [|b r].
  - simpl. rewrite Ha'. reflexivity.
  - rewrite segments_cons2.
    change (comprehension _create_type_annotation
              (serialize a :: segments (b :: r)))
      with (y <- _create_type_annotation (serialize a) ;;
            ys <- comprehension _create_type_annotation (segments (b :: r)) ;;
            Returns (y :: ys)).
    rewrite Ha, IH. reflexivity.
Qed.

Lemma parse_group s base args a l :
  split_first LBRACKET s = Some (base, args) ->
  rstrip_brackets args = join [COMMA; SPACE] (segments (a :: l)) ->
  well_formed (Node base (a :: l)) = true ->
  Forall (fun n =>
    _create_type_annotation (serialize n) = Returns (to_ast n)
    /\ _create_type_annotation (rstrip_brackets (serialize n))
       = Returns (to_ast n)) (a :: l) ->
  _create_type_annotation s = Returns (to_ast (Node base (a :: l))).
Proof.
  intros Hs Hargs Hwf IH.
  apply well_formed_node in Hwf as [Hb Ha].
  rewrite _create_type_annotation_eq, Hs. cbv zeta.
  rewrite Hargs, split_args_segments, segments_length, (strip_base _ Hb)
    by (try discriminate; exact Ha).
  pose proof (comprehension_segments _ IH) as Hc.
  destruct l as [|b r].
  - simpl in Hc |- *.
    destruct (_create_type_annotation (rstrip_brackets (serialize a)));
      [|discriminate].
    injection Hc as ->. reflexivity.
  - change (1 <? length (a :: b :: r))%nat with true. cbv iota.
    rewrite Hc. reflexivity.
Qed.

Lemma parse_serialized n :
  well_formed n = true ->
  _create_type_annotation (serialize n) = Returns (to_ast n)
  /\ _create_type_annotation (rstrip_brackets (serialize n))
     = Returns (to_ast n).
Proof.
  induction n as [base arguments IH] using TypeNode_induction. intros H.
  pose proof (well_formed_node _ _ H) as [Hb Ha].
  pose proof (base_name_chars _ Hb) as [Hne Hchars].
  assert (IH' : Forall (fun n =>
    _create_type_annotation (serialize n) = Returns (to_ast n)
    /\ _create_type_annotation (rstrip_brackets (serialize n))
       = Returns (to_ast n)) arguments).
  { rewrite Forall_forall in *. intros x Hx. apply IH; auto. }
  destruct arguments as [|a l].
  - assert (E : rstrip_brackets base = base).
    { destruct (rstrip_serialize_last (Node base []) H) as (x & d & E & _).
      destruct (rstrip_by_prefix (N.eqb RBRACKET) base) as [t Et].
      destruct (exists_last Hne) as (y & e & Eb). simpl in E.
      rewrite Eb in Hchars. rewrite forallb_app in Hchars.
      apply andb_true_iff in Hchars as [_ He]. simpl in He.
      rewrite andb_true_r in He.
      apply base_char_spec in He as (_ & _ & He & _).
      rewrite Eb. apply rstrip_by_keep. rewrite N.eqb_sym. exact He. }
    simpl serialize. rewrite E.
    assert (_create_type_annotation base = Returns (Name base)) as ->.
    { rewrite _create_type_annotation_eq,
        (split_first_none _ _ (base_no_bracket _ Hchars)),
        (strip_base _ Hb). reflexivity. }
    split; reflexivity.
  - destruct (rstrip_joined (a :: l)) as [EJ _]; [discriminate|exact Ha|].
    split.
    + apply (parse_group _ base
               (join [COMMA; SPACE] (map serialize (a :: l)) ++ [RBRACKET]));
        [| |exact H|exact IH'].
      * rewrite serialize_cons. apply split_first_app, base_no_bracket, Hchars.
      * unfold rstrip_brackets in *.
        rewrite rstrip_by_drop by reflexivity. exact EJ.
    + apply (parse_group _ base (join [COMMA; SPACE] (segments (a :: l))));
        [| |exact H|exact IH'].
      * rewrite (rstrip_serialize_node _ _ _ H).
        apply split_first_app, base_no_bracket, Hchars.
      * rewrite <- EJ. apply rstrip_by_idem.
Qed.

(** The tree built for a node determines the node. *)
Lemma type_node_to_ast n : type_node (to_ast n) = Some n.
Proof.
  induction n as [base arguments IH] using TypeNode_induction.
  destruct arguments as [|a [|b r]]; [reflexivity| |].
  - inversion IH as [|? ? Ha _]; subst. simpl.
    destruct a as [ab [|a1 [|a2 ar]]]; simpl in Ha |- *;
      try (rewrite Ha; reflexivity). reflexivity.
  - assert (E : forall l, Forall (fun n => type_node (to_ast n) = Some n) l ->
       all_some (map type_node (map to_ast l)) = Some l).
    { induction 1 as [|x l Hx Hl IHl]; [reflexivity|].
      simpl. rewrite Hx, IHl. reflexivity. }
    change (to_ast (Node base (a :: b :: r)))
      with (Subscript (Name base) (Tuple (map to_ast (a :: b :: r)))).
    cbn [type_node]. rewrite (E _ IH). reflexivity.
Qed.

(** ** The declaration builder *)

Lemma comprehension_Forall2 {A B} (f : A -> result B) l : forall ys,
  comprehension f l = Returns ys -> Forall2 (fun x y => f x = Returns y) l ys.
Proof.
  induction l as [|x l IH]; simpl; intros ys H.
  - injection H as <-. constructor.
  - destruct (f x) as [y|e] eqn:Hx; simpl in H; [|discriminate].
    destruct (comprehension f l) as [zs|e]; simpl in H; [|discriminate].
    injection H as <-. constructor; [exact Hx|apply IH; reflexivity].
Qed.

Lemma comprehension_returns {A B} (f : A -> result B) l :
  forallb (fun x => returnsb (f x)) l = true ->
  exists ys, comprehension f l = Returns ys.
Proof.
  induction l as [|x l IH]; simpl; intros H; [eexists; reflexivity|].
  apply andb_true_iff in H as [Hx Hl]. destruct (IH Hl) as [ys ->].
  destruct (f x); [|discriminate]. eexists; reflexivity.
Qed.

Lemma append_params_spec params : forall args,
  append_params params args
  = (extra <- comprehension param_arg params ;; Returns (args ++ extra)).
Proof.
  induction params as [|[n t] params IH]; simpl; intros args.
  - rewrite app_nil_r. reflexivity.
  - unfold param_arg at 1. simpl.
    destruct (_create_type_annotation t) as [e|x]; simpl; [|reflexivity].
    rewrite IH. destruct (comprehension param_arg params); simpl;
      [rewrite <- app_assoc|]; reflexivity.
Qed.

Lemma append_overloads_spec self items : forall functions,
  append_overloads self items functions
  = (ovs <- comprehension (overload_entry self) items ;;
     Returns (functions ++ ovs)).
Proof.
  induction items as [|[k v] items IH]; simpl; intros functions.
  - rewrite app_nil_r. reflexivity.
  - unfold overload_entry at 1. simpl.
    destruct (_create_overload_function _ _ _) as [f|x]; simpl; [|reflexivity].
    rewrite IH. destruct (comprehension _ items); simpl;
      [rewrite <- app_assoc|]; reflexivity.
Qed.

Lemma _create_arguments_spec self literal_value :
  _create_arguments self literal_value
  = (extra <- comprehension param_arg (additional_params self) ;;
     Returns {| posonlyargs := [];
                args := receiver self
                  ++ {| arg_name := key_param self;
                         annotation := Some
                           match literal_value with
                           | Some v => _create_literal_annotation v
                           | None => Name (py "str")
                           end |}
                  :: extra;
                kwonlyargs := []; kw_defaults := []; defaults := [] |}).
Proof.
  unfold _create_arguments, receiver. rewrite append_params_spec.
  destruct (comprehension param_arg (additional_params self)); simpl;
    [|reflexivity].
  destruct (has_self self); simpl; rewrite <- ?app_assoc; reflexivity.
Qed.

Lemma params_return self :
  types_parse self = true ->
  exists extra,
    comprehension param_arg (additional_params self) = Returns extra.
Proof.
  unfold types_parse. intros H. apply andb_true_iff in H as [H _].
  apply comprehension_returns. rewrite forallb_forall in *.
  intros p Hp. specialize (H p Hp). unfold param_arg.
  destruct (_create_type_annotation (snd p)); [reflexivity|discriminate].
Qed.

Lemma func_class_function self n a b d r :
  is_function (func_class self n a b d r) = true
  /\ stmt_name (func_class self n a b d r) = n
  /\ stmt_args (func_class self n a b d r) = args a
  /\ stmt_body (func_class self n a b d r) = b
  /\ stmt_decorators (func_class self n a b d r) = d
  /\ stmt_returns (func_class self n a b d r) = Some r
  /\ is_async_def (func_class self n a b d r) = is_async self.
Proof. unfold func_class. destruct (is_async self); simpl; auto 10. Qed.

Lemma receiver_discriminant self key extra :
  nth_error (receiver self ++ key :: extra)
    (if has_self self then 1 else 0)%nat = Some key.
Proof. unfold receiver. destruct (has_self self); reflexivity. Qed.

(** What an overload declaration looks like once it is built. *)
Lemma overload_built self key return_type_name f :
  _create_overload_function self key return_type_name = Returns f ->
  is_function f = true
  /\ stmt_name f = function_name self
  /\ stmt_decorators f = [Name (py "overload")]
  /\ stmt_body f = placeholder
  /\ discriminant self f
     = Some {| arg_name := key_param self;
               annotation := Some (_create_literal_annotation key) |}
  /\ (exists r, stmt_returns f = Some r
                /\ _create_type_annotation return_type_name = Returns r)
  /\ (exists extra,
        comprehension param_arg (additional_params self) = Returns extra
        /\ stmt_args f
           = receiver self
             ++ {| arg_name := key_param self;
                    annotation := Some (_create_literal_annotation key) |}
             :: extra)
  /\ is_async_def f = is_async self.
Proof.
  unfold _create_overload_function. rewrite _create_arguments_spec.
  destruct (comprehension param_arg _) as [extra|x]; cbn [bind]; [|discriminate].
  destruct (_create_type_annotation return_type_name) as [r|x]; cbn [bind];
    [|discriminate].
  intros H. injection H as <-. unfold discriminant.
  match goal with
  | |- context [func_class ?s ?n ?a ?b ?d ?r] =>
      destruct (func_class_function s n a b d r)
        as (H1 & H2 & H3 & H4 & H5 & H6 & H7)
  end.
  rewrite H3. simpl args. rewrite receiver_discriminant.
  repeat split; eauto.
Qed.

Lemma overload_returns self key return_type_name :
  types_parse self = true ->
  returnsb (_create_type_annotation return_type_name) = true ->
  exists f, _create_overload_function self key return_type_name = Returns f.
Proof.
  intros Hp Hr. unfold _create_overload_function.
  rewrite _create_arguments_spec.
  destruct (params_return self Hp) as [extra ->]. simpl.
  destruct (_create_type_annotation return_type_name); [|discriminate].
  simpl. eexists; reflexivity.
Qed.

Lemma overloads_return self :
  types_parse self = true ->
  exists ovs, comprehension (overload_entry self) (mapping self) = Returns ovs.
Proof.
  intros H. apply comprehension_returns. apply forallb_forall.
  intros kv Hkv. unfold overload_entry.
  destruct (overload_returns self (py_str (fst kv))
              (_get_return_type_name self (snd kv)) H) as [f ->];
    [|reflexivity].
  unfold types_parse in H. apply andb_true_iff in H as [_ H].
  rewrite forallb_forall in H. apply H, Hkv.
Qed.

Section GenerationProperties.

Variable ast_parse : str -> result module_.

Lemma implementation_built self body_code f :
  _create_implementation_function ast_parse self body_code = Returns f ->
  is_function f = true
  /\ stmt_name f = function_name self
  /\ stmt_decorators f = []
  /\ discriminant self f
     = Some {| arg_name := key_param self;
               annotation := Some (Name (py "str")) |}
  /\ (exists extra, stmt_args f
        = receiver self
          ++ {| arg_name := key_param self;
                 annotation := Some (Name (py "str")) |}
          :: extra)
  /\ (exists r, stmt_returns f = Some r
        /\ _create_type_annotation (return_type_fallback self) = Returns r).
Proof.
  unfold _create_implementation_function.
  set (b := match body_code with
            | Some (c :: code) => _
            | _ => _
            end).
  destruct b as [body|x]; cbn [bind]; [|discriminate].
  rewrite _create_arguments_spec.
  destruct (comprehension param_arg _) as [extra|x]; cbn [bind]; [|discriminate].
  destruct (_create_type_annotation (return_type_fallback self)) as [r|x];
    cbn [bind]; [|discriminate].
  intros H. injection H as <-. unfold discriminant.
  match goal with
  | |- context [func_class ?s ?n ?a ?b ?d ?r] =>
      destruct (func_class_function s n a b d r)
        as (H1 & H2 & H3 & H4 & H5 & H6 & H7)
  end.
  rewrite H3. simpl args. rewrite receiver_discriminant.
  repeat split; eauto.
Qed.

Lemma implementation_returns self body_code :
  types_parse self = true ->
  implementation_parses ast_parse self body_code = true ->
  exists f,
    _create_implementation_function ast_parse self body_code = Returns f.
Proof.
  intros Hp Hi. unfold implementation_parses in Hi.
  apply andb_true_iff in Hi as [Hf Hb].
  unfold _create_implementation_function.
  assert (exists body,
    match body_code with
    | Some (c :: code) =>
        body_module <- ast_parse (c :: code) ;;
        Returns (module_body body_module)
    | _ => Returns placeholder
    end = Returns body) as [body ->].
  { destruct body_code as [[|c code]|]; try (eexists; reflexivity).
    destruct (ast_parse (c :: code)); [|discriminate].
    eexists; reflexivity. }
  simpl. rewrite _create_arguments_spec.
  destruct (params_return self Hp) as [extra ->]. simpl.
  destruct (_create_type_annotation (return_type_fallback self));
    [|discriminate].
  eexists; reflexivity.
Qed.

(** The declarations are the overloads of the mapping entries, in order, and
    then the implementation when it is asked for. *)
Lemma declarations_built self include_implementation body fs :
  declarations ast_parse self include_implementation body = Returns fs ->
  exists ovs,
    comprehension (overload_entry self) (mapping self) = Returns ovs
    /\ if include_implementation
       then exists impl,
         _create_implementation_function ast_parse self body = Returns impl
         /\ fs = ovs ++ [impl]
       else fs = ovs.
Proof.
  unfold declarations. rewrite append_overloads_spec.
  destruct (comprehension _ _) as [ovs|x]; simpl; [|discriminate].
  destruct include_implementation.
  - destruct (_create_implementation_function _ _ _) as [impl|x]; simpl;
      [|discriminate].
    intros H. injection H as <-. exists ovs. split; [reflexivity|].
    exists impl. split; reflexivity.
  - intros H. injection H as <-. exists ovs. split; reflexivity.
Qed.

Lemma declarations_return self include_implementation body :
  generation_parses ast_parse self include_implementation body = true ->
  exists fs,
    declarations ast_parse self include_implementation body = Returns fs.
Proof.
  unfold generation_parses. intros H. apply andb_true_iff in H as [Hp Hi].
  unfold declarations. rewrite append_overloads_spec.
  destruct (overloads_return self Hp) as [ovs ->]. simpl.
  destruct include_implementation; [|eexists; reflexivity].
  destruct (implementation_returns self body Hp Hi) as [impl ->].
  eexists; reflexivity.
Qed.

Lemma overloads_in_order self ovs :
  comprehension (overload_entry self) (mapping self) = Returns ovs ->
  Forall2 (fun kv f => overload_of self (fst kv) f) (mapping self) ovs.
Proof.
  intros H. apply comprehension_Forall2 in H.
  induction H as [|kv f l fs Hf _ IH]; constructor; [|exact IH].
  apply overload_built in Hf. unfold overload_of. tauto.
Qed.

End GenerationProperties.

(** ** When generation completes *)

Lemma param_outcome p :
  (bad_param p /\ param_arg p = Raises IndexError)
  \/ (~ bad_param p /\ exists a, param_arg p = Returns a).
Proof.
  unfold bad_param, param_arg.
  destruct (parse_outcome (snd p)) as [[He ->]|[He [e ->]]].
  - left. split; [exact He|reflexivity].
  - right. split; [exact He|eexists; reflexivity].
Qed.

Lemma arguments_outcome_aux self literal_value :
  (Exists bad_param (additional_params self)
   /\ _create_arguments self literal_value = Raises IndexError)
  \/ (Forall (fun p => ~ bad_param p) (additional_params self)
      /\ exists a, _create_arguments self literal_value = Returns a).
Proof.
  rewrite _create_arguments_spec.
  destruct (comprehension_outcome param_arg bad_param
              (additional_params self) (fun p _ => param_outcome p))
    as [[He ->]|[Hf [extra ->]]].
  - left. split; [exact He|reflexivity].
  - right. split; [exact Hf|eexists; reflexivity].
Qed.

Lemma overload_outcome self key return_type_name :
  ((Exists bad_param (additional_params self)
    \/ empty_group return_type_name)
   /\ _create_overload_function self key return_type_name
      = Raises IndexError)
  \/ (~ (Exists bad_param (additional_params self)
         \/ empty_group return_type_name)
      /\ exists f,
           _create_overload_function self key return_type_name = Returns f).
Proof.
  unfold _create_overload_function.
  destruct (arguments_outcome_aux self (Some key)) as [[He ->]|[Hf [a ->]]].
  - left. split; [left; exact He|reflexivity].
  - cbn [bind].
    destruct (parse_outcome return_type_name) as [[He ->]|[He [e ->]]].
    + left. split; [right; exact He|reflexivity].
    + right. split; [|eexists; reflexivity].
      intros [H|H]; [|exact (He H)].
      apply Exists_exists in H as (p & Hin & Hp).
      rewrite Forall_forall in Hf. exact (Hf p Hin Hp).
Qed.

Lemma overloads_outcome self :
  (overloads_complete self
   /\ exists ovs,
        comprehension (overload_entry self) (mapping self) = Returns ovs)
  \/ (~ overloads_complete self
      /\ comprehension (overload_entry self) (mapping self)
         = Raises IndexError).
Proof.
  destruct (comprehension_outcome (overload_entry self)
              (fun kv => Exists bad_param (additional_params self)
                         \/ bad_return self kv)
              (mapping self)
              (fun kv _ => overload_outcome self (py_str (fst kv))
                             (_get_return_type_name self (snd kv))))
    as [[He ->]|[Hf [ovs ->]]].
  - right. split; [|reflexivity].
    apply Exists_exists in He as (kv & Hin & Hq).
    intros [E|[Hp Hr]]; [rewrite E in Hin; contradiction|].
    destruct Hq as [Hq|Hq].
    + apply Exists_exists in Hq as (q & Hq & Hb).
      rewrite Forall_forall in Hp. exact (Hp q Hq Hb).
    + rewrite Forall_forall in Hr. exact (Hr kv Hin Hq).
  - left. split; [|eexists; reflexivity].
    unfold overloads_complete.
    destruct (mapping self) as [|kv l]; [left; reflexivity|right].
    split.
    + inversion Hf as [|? ? Hkv _]; subst.
      apply Forall_Exists_neg. intros H. apply Hkv. left. exact H.
    + eapply Forall_impl; [|exact Hf].
      intros x Hx H. apply Hx. right. exact H.
Qed.

Section Completion.

Variable ast_parse : str -> result module_.

Lemma implementation_outcome self body_code :
  (implementation_completes ast_parse self body_code
   /\ exists f,
        _create_implementation_function ast_parse self body_code = Returns f)
  \/ (~ implementation_completes ast_parse self body_code
      /\ exists x,
           _create_implementation_function ast_parse self body_code
           = Raises x).
Proof.
  assert (T : forall b,
    (Forall (fun p => ~ bad_param p) (additional_params self)
     /\ ~ empty_group (return_type_fallback self)
     /\ exists f,
          (a <- _create_arguments self None ;;
           r <- _create_type_annotation (return_type_fallback self) ;;
           Returns (func_class self (function_name self) a b [] r))
          = Returns f)
    \/ (~ (Forall (fun p => ~ bad_param p) (additional_params self)
           /\ ~ empty_group (return_type_fallback self))
        /\ exists x,
             (a <- _create_arguments self None ;;
              r <- _create_type_annotation (return_type_fallback self) ;;
              Returns (func_class self (function_name self) a b [] r))
             = Raises x)).
  { intros b.
    destruct (arguments_outcome_aux self None) as [[He ->]|[Hf [a ->]]];
      cbn [bind].
    - right. split; [|eexists; reflexivity].
      intros [Hf _]. apply Forall_Exists_neg in Hf. exact (Hf He).
    - destruct (parse_outcome (return_type_fallback self))
        as [[He ->]|[He [e ->]]]; cbn [bind].
      + right. split; [|eexists; reflexivity]. intros [_ H]. exact (H He).
      + left. split; [exact Hf|]. split; [exact He|eexists; reflexivity]. }
  unfold _create_implementation_function, implementation_completes.
  destruct body_code as [[|c code]|]; cbn [bind].
  - destruct (T placeholder) as [(H1 & H2 & H3)|[H1 H2]];
      [left; auto|right; split; [tauto|exact H2]].
  - destruct (ast_parse (c :: code)) as [bm|x]; cbn [bind].
    + destruct (T (module_body bm)) as [(H1 & H2 & H3)|[H1 H2]];
        [left; split; [split; [eexists; reflexivity|auto]|exact H3]
        |right; split; [tauto|exact H2]].
    + right. split; [|eexists; reflexivity].
      intros [[bm E] _]. discriminate.
  - destruct (T placeholder) as [(H1 & H2 & H3)|[H1 H2]];
      [left; auto|right; split; [tauto|exact H2]].
Qed.

(** [generate] builds its module exactly when the overloads and, when it is
    asked for, the implementation are built; it raises otherwise. *)
Lemma generate_module_outcome self include_implementation body :
  (generation_completes ast_parse self include_implementation body
   /\ exists m,
        generate_module ast_parse self include_implementation body
        = Returns m)
  \/ (~ generation_completes ast_parse self include_implementation body
      /\ exists x,
           generate_module ast_parse self include_implementation body
           = Raises x).
Proof.
  unfold generate_module, declarations, generation_completes.
  rewrite append_overloads_spec.
  destruct (overloads_outcome self) as [[Ho [ovs ->]]|[Ho ->]]; cbn [bind].
  2:{ right. split; [|eexists; reflexivity]. intros [H _]. exact (Ho H). }
  destruct include_implementation.
  - destruct (implementation_outcome self body) as [[Hi [f ->]]|[Hi [x ->]]];
      cbn [bind].
    + left. split; [split; [exact Ho|intros _; exact Hi]|].
      eexists; reflexivity.
    + right. split; [|eexists; reflexivity].
      intros [_ H]. exact (Hi (H eq_refl)).
  - left. split; [split; [exact Ho|discriminate]|eexists; reflexivity].
Qed.

End Completion.

(** * The claims *)

(** ** The parser *)

(** C1 (amended).  The parser ends on every text: the length of the text
    bounds the depth of its recursion.  It returns a type node unless it
    meets a bracket group without argument, where nothing but closing
    brackets follows an opening bracket; on such a text, and on no other, it
    raises [IndexError]. *)
Theorem parser_outcome type_str :
  parse_fuel (S (length type_str)) type_str
  = Some (_create_type_annotation type_str)
  /\ ((~ empty_group type_str
       /\ exists node, _create_type_annotation type_str = Returns node)
      \/ (empty_group type_str
          /\ _create_type_annotation type_str = Raises IndexError)).
Proof.
  split; [apply parse_fuel_enough; lia|].
  destruct (parse_outcome type_str) as [H|H]; [right|left]; exact H.
Qed.

(** C1, as stated, fails on a base followed by an empty bracket pair:
    ['list[]'] is not parsed to a node, [arg_list[0]] raises. *)
Lemma empty_bracket_pair_raises :
  _create_type_annotation (py "list[]") = Raises IndexError
  /\ ~ exists node, _create_type_annotation (py "list[]") = Returns node.
Proof.
  assert (E : _create_type_annotation (py "list[]") = Raises IndexError)
    by (vm_compute; reflexivity).
  split; [exact E|]. intros [node H]. rewrite E in H. discriminate.
Qed.

(** Identifiers are base names. *)
Lemma identifier_base_name s : isidentifier s = true -> base_name s = true.
Proof.
  assert (H : forall c, ident_char c = true -> base_char c = true).
  { intros c. unfold ident_char, ident_start, base_char, isspace,
      LBRACKET, RBRACKET, COMMA.
    rewrite negb_true_iff, !orb_true_iff, !andb_true_iff, !orb_false_iff,
      !andb_false_iff, !N.leb_le, !N.eqb_eq, !N.leb_gt, !N.eqb_neq.
    lia. }
  destruct s as [|c r]; simpl; [discriminate|]. intros E.
  apply andb_true_iff in E as [Hc Hr].
  rewrite H by (unfold ident_char; rewrite Hc; reflexivity).
  apply forallb_forall. intros x Hx. apply H.
  rewrite forallb_forall in Hr. apply Hr, Hx.
Qed.

(** C2.  Round trip: a type node whose base names are non-empty and free of
    whitespace, brackets and commas (as every identifier is), with any
    arguments at any nesting depth, is parsed back from its serialized text:
    the parser returns the syntax tree of that very node. *)
Theorem round_trip (n : TypeNode) :
  well_formed n = true ->
  exists e,
    _create_type_annotation (serialize n) = Returns e
    /\ e = to_ast n
    /\ type_node e = Some n.
Proof.
  intros H. exists (to_ast n).
  split; [apply parse_serialized, H|].
  split; [reflexivity|apply type_node_to_ast].
Qed.

Lemma round_trip_witness :
  well_formed map_string_list_int = true
  /\ nesting map_string_list_int = 2%nat
  /\ exists e,
       _create_type_annotation (serialize map_string_list_int) = Returns e
       /\ e = to_ast map_string_list_int
       /\ type_node e = Some map_string_list_int.
Proof.
  split; [reflexivity|]. split; [reflexivity|].
  apply (round_trip map_string_list_int). reflexivity.
Defined.

(** C3.  ['Map[String, List[Int]]'] is parsed to the node of base [Map] with
    two arguments, [String] and [List] of [Int].  A comma read at a depth
    other than 0 stays in the current segment, and the argument text of a
    serialized node is cut into exactly one segment per argument, each
    parsed to that argument. *)
Theorem nested_arguments_not_split (st : scan_state) (base : str)
    (arguments : list TypeNode) :
  _create_type_annotation (py "Map[String, List[Int]]")
  = Returns
      (Subscript (Name (py "Map"))
         (Tuple [Name (py "String");
                 Subscript (Name (py "List")) (Name (py "Int"))]))
  /\ (exists e,
        _create_type_annotation (py "Map[String, List[Int]]") = Returns e
        /\ type_node e
           = Some (Node (py "Map")
                     [Node (py "String") [];
                      Node (py "List") [Node (py "Int") []]]))
  /\ (depth st <> 0%Z ->
      scan_step st COMMA
      = {| arg_list := arg_list st; depth := depth st;
           current := current st ++ [COMMA] |})
  /\ (arguments <> [] -> well_formed (Node base arguments) = true ->
      exists text,
        split_first LBRACKET (serialize (Node base arguments))
        = Some (base, text)
        /\ length (split_args (rstrip_brackets text)) = length arguments
        /\ comprehension _create_type_annotation
             (split_args (rstrip_brackets text))
           = Returns (map to_ast arguments)).
Proof.
  split; [vm_compute; reflexivity|].
  split; [eexists; split; vm_compute; reflexivity|].
  split.
  - intros H. unfold scan_step.
    change (COMMA =? LBRACKET)%N with false.
    change (COMMA =? RBRACKET)%N with false.
    destruct (Z.eqb_spec (depth st) 0); [contradiction|reflexivity].
  - intros Hne H. destruct arguments as [|a l]; [contradiction|].
    pose proof (well_formed_node _ _ H) as [Hb Ha].
    pose proof (base_name_chars _ Hb) as [_ Hchars].
    destruct (rstrip_joined (a :: l)) as [EJ _]; [discriminate|exact Ha|].
    exists (join [COMMA; SPACE] (map serialize (a :: l)) ++ [RBRACKET]).
    split.
    { rewrite serialize_cons. apply split_first_app, base_no_bracket, Hchars. }
    assert (E : rstrip_brackets
                  (join [COMMA; SPACE] (map serialize (a :: l)) ++ [RBRACKET])
                = join [COMMA; SPACE] (segments (a :: l))).
    { unfold rstrip_brackets in *.
      rewrite rstrip_by_drop by reflexivity. exact EJ. }
    rewrite E, split_args_segments by (try discriminate; exact Ha).
    split; [apply segments_length|].
    apply comprehension_segments. rewrite Forall_forall in *.
    intros x Hx. apply parse_serialized, Ha, Hx.
Qed.

Lemma nested_arguments_not_split_witness :
  scan_step {| arg_list := []; depth := 1; current := py "A" |} COMMA
  = {| arg_list := []; depth := 1; current := py "A," |}
  /\ exists text,
       split_first LBRACKET (serialize map_string_list_int)
       = Some (py "Map", text)
       /\ length (split_args (rstrip_brackets text)) = 2%nat
       /\ comprehension _create_type_annotation
            (split_args (rstrip_brackets text))
          = Returns [Name (py "String");
                     Subscript (Name (py "List")) (Name (py "Int"))].
Proof.
  destruct (nested_arguments_not_split
              {| arg_list := []; depth := 1; current := py "A" |}
              (py "Map")
              [Node (py "String") []; Node (py "List") [Node (py "Int") []]])
    as (_ & _ & H3 & H4).
  split.
  - apply H3. simpl. discriminate.
  - apply H4; [discriminate|reflexivity].
Defined.

(** ** The assembler *)

Section Assembly.

Variable ast_parse : str -> result module_.
Variable ast_unparse : module_ -> str.

Lemma generate_module_body self include_implementation body m :
  generate_module ast_parse self include_implementation body = Returns m ->
  declarations ast_parse self include_implementation body
  = Returns (module_body m).
Proof.
  unfold generate_module.
  destruct (declarations _ _ _ _) as [fs|x]; simpl; [|discriminate].
  intros H. injection H as <-. reflexivity.
Qed.

Lemma generate_module_returns self include_implementation body :
  generation_parses ast_parse self include_implementation body = true ->
  exists m,
    generate_module ast_parse self include_implementation body = Returns m.
Proof.
  intros H. unfold generate_module.
  destruct (declarations_return ast_parse _ _ _ H) as [fs ->].
  eexists; reflexivity.
Qed.

Lemma overloads_are_functions self ovs :
  comprehension (overload_entry self) (mapping self) = Returns ovs ->
  length ovs = length (mapping self)
  /\ Forall (fun f => is_function f = true) ovs.
Proof.
  intros H. apply overloads_in_order in H.
  induction H as [|kv f l fs Hf _ [IH1 IH2]]; [split; [reflexivity|constructor]|].
  split; [simpl; rewrite IH1; reflexivity|].
  constructor; [apply Hf|exact IH2].
Qed.

(** C4 (amended).  Whenever [generate] builds its module, the module holds
    exactly [len(mapping)] function declarations without implementation and
    [len(mapping) + 1] with it, the last being the implementation
    declaration.  It builds the module exactly when (a) the mapping is empty
    or neither the type text of an additional parameter nor the return type
    resolved for a mapping value has a bracket group without argument, and
    (b) with an implementation, moreover [ast.parse] accepts the body text
    when there is a non-empty one and neither the type text of an additional
    parameter nor the fallback type has such a group; on every other input
    it raises.  In particular it builds the module whenever every type
    expression of the configuration is parsed and, with an implementation,
    [ast.parse] accepts the body. *)
Theorem declaration_count (self : generator) (include_implementation : bool)
    (implementation_body : option str) :
  (forall m,
     generate_module ast_parse self include_implementation
       implementation_body = Returns m ->
     length (module_body m)
     = (length (mapping self) + if include_implementation then 1 else 0)%nat
     /\ Forall (fun f => is_function f = true) (module_body m)
     /\ (include_implementation = true ->
         exists overloads impl,
           module_body m = overloads ++ [impl]
           /\ length overloads = length (mapping self)
           /\ _create_implementation_function ast_parse self
                implementation_body = Returns impl
           /\ stmt_decorators impl = []))
  /\ ((generation_completes ast_parse self include_implementation
         implementation_body
       /\ exists m,
            generate_module ast_parse self include_implementation
              implementation_body = Returns m)
      \/ (~ generation_completes ast_parse self include_implementation
             implementation_body
          /\ exists x,
               generate_module ast_parse self include_implementation
                 implementation_body = Raises x))
  /\ (generation_parses ast_parse self include_implementation
        implementation_body = true ->
      exists m,
        generate_module ast_parse self include_implementation
          implementation_body = Returns m).
Proof.
  split; [|split; [apply generate_module_outcome
                  |apply generate_module_returns]].
  intros m Hm. apply generate_module_body in Hm.
  apply declarations_built in Hm as (ovs & Hovs & Hfs).
  destruct (overloads_are_functions _ _ Hovs) as [Hlen Hfun].
  destruct include_implementation.
  - destruct Hfs as (impl & Himpl & ->).
    pose proof (implementation_built _ _ _ _ Himpl) as (Hf & _ & Hd & _).
    split; [rewrite length_app, Hlen; reflexivity|].
    split; [apply Forall_app; split; [exact Hfun|constructor; [exact Hf|constructor]]|].
    intros _. exists ovs, impl. auto.
  - subst ovs. split; [rewrite Hlen; lia|].
    split; [exact Hfun|discriminate].
Qed.

(** C5 (amended).  Whenever [generate] builds its module, with or without
    implementation, its first [len(mapping)] declarations are the overloads
    of the mapping entries in the order of the mapping, one per entry, the
    i-th narrowed to the literal of the string form of the i-th key (the key
    itself when it is a string); nothing follows them without
    implementation, and with it the one implementation declaration, which
    bears no overload marker.  It builds the module exactly under the
    conditions (a) and (b) of C4 and raises on every other input.  In
    particular the keys ["a"], ["b"], ["c"] give, when the module is built,
    three overloads narrowed to ["a"], ["b"], ["c"] in that order. *)
Theorem overloads_follow_mapping (self : generator)
    (include_implementation : bool) (implementation_body : option str) :
  (forall m,
     generate_module ast_parse self include_implementation
       implementation_body = Returns m ->
     exists overloads rest,
       module_body m = overloads ++ rest
       /\ Forall2 (fun kv f => overload_of self (fst kv) f)
            (mapping self) overloads
       /\ if include_implementation
          then exists impl, rest = [impl] /\ stmt_decorators impl = []
          else rest = [])
  /\ ((generation_completes ast_parse self include_implementation
         implementation_body
       /\ exists m,
            generate_module ast_parse self include_implementation
              implementation_body = Returns m)
      \/ (~ generation_completes ast_parse self include_implementation
             implementation_body
          /\ exists x,
               generate_module ast_parse self include_implementation
                 implementation_body = Raises x))
  /\ (forall va vb vc m,
        mapping self = [(PyStr (py "a"), va); (PyStr (py "b"), vb);
                        (PyStr (py "c"), vc)] ->
        generate_module ast_parse self include_implementation
          implementation_body = Returns m ->
        exists fa fb fc rest,
          module_body m = [fa; fb; fc] ++ rest
          /\ overload_of self (PyStr (py "a")) fa
          /\ overload_of self (PyStr (py "b")) fb
          /\ overload_of self (PyStr (py "c")) fc
          /\ length rest = if include_implementation then 1%nat else 0%nat).
Proof.
  assert (H1 : forall m,
     generate_module ast_parse self include_implementation
       implementation_body = Returns m ->
     exists overloads rest,
       module_body m = overloads ++ rest
       /\ Forall2 (fun kv f => overload_of self (fst kv) f)
            (mapping self) overloads
       /\ if include_implementation
          then exists impl, rest = [impl] /\ stmt_decorators impl = []
          else rest = []).
  { intros m Hm. apply generate_module_body in Hm.
    apply declarations_built in Hm as (ovs & Hovs & Hfs).
    pose proof (overloads_in_order _ _ Hovs) as Hord.
    destruct include_implementation.
    - destruct Hfs as (impl & Himpl & E). exists ovs, [impl].
      split; [exact E|]. split; [exact Hord|].
      exists impl. split; [reflexivity|].
      apply implementation_built in Himpl as (_ & _ & Hd & _). exact Hd.
    - exists ovs, []. rewrite app_nil_r. auto. }
  split; [exact H1|]. split; [apply generate_module_outcome|].
  intros va vb vc m Hmap Hm.
  destruct (H1 m Hm) as (ovs & rest & E & Hord & Hrest).
  rewrite Hmap in Hord.
  inversion Hord as [|? fa ? l1 Ha T1]; subst.
  inversion T1 as [|? fb ? l2 Hb T2]; subst.
  inversion T2 as [|? fc ? l3 Hc T3]; subst.
  inversion T3; subst. exists fa, fb, fc, rest.
  split; [exact E|]. repeat (split; [assumption|]).
  destruct include_implementation.
  - destruct Hrest as (impl & -> & _). reflexivity.
  - subst rest. reflexivity.
Qed.

(** C8.  [generate_with_imports] returns the baseline import, each extra
    import on a line of its own, verbatim and in the order given, two blank
    lines, and then the very text [generate] returns on the same arguments;
    an exception of [generate] is an exception of
    [generate_with_imports]. *)
Theorem import_layout (self : generator) (include_implementation : bool)
    (implementation_body : option str) (extra_imports : option (list str)) :
  generate_with_imports ast_parse ast_unparse self include_implementation
    implementation_body extra_imports
  = (code <- generate ast_parse ast_unparse self include_implementation
               implementation_body ;;
     Returns
       (py "from typing import overload, Literal"
        ++ concat (map (fun line => NEWLINE :: line)
                     (default [] extra_imports))
        ++ [NEWLINE; NEWLINE; NEWLINE]
        ++ code)).
Proof.
  assert (J : forall (x : str) l,
             join [NEWLINE] (x :: l)
             = x ++ concat (map (fun line => NEWLINE :: line) l)).
  { intros x l. revert x.
    induction l as [|y l IH]; intros x; [simpl; rewrite app_nil_r; reflexivity|].
    rewrite join_cons2, IH. reflexivity. }
  unfold generate_with_imports.
  destruct (generate _ _ _ _ _) as [code|x]; [|reflexivity].
  cbn [bind]. f_equal.
  destruct extra_imports as [[|i more]|]; cbn [default].
  - reflexivity.
  - change ([py "from typing import overload, Literal"] ++ i :: more)
      with (py "from typing import overload, Literal" :: i :: more).
    rewrite J, <- !app_assoc. reflexivity.
  - reflexivity.
Qed.

(** C9.  Every key is turned into its string form before the narrowing:
    the discriminant of the overload built for a mapping entry bears the
    annotation [Literal[str(key)]], a literal over a string.  For an integer
    key that is the literal of its decimal text, not of the integer. *)
Theorem key_coerced_to_string (self : generator)
    (include_implementation : bool) (implementation_body : option str)
    (m : module_) :
  generate_module ast_parse self include_implementation implementation_body
  = Returns m ->
  Forall2
    (fun kv f =>
       exists a,
         discriminant self f = Some a
         /\ annotation a
            = Some (Subscript (Name (py "Literal"))
                      (Constant (CStr (py_str (fst kv))))))
    (mapping self) (firstn (length (mapping self)) (module_body m))
  /\ py_str (PyInt 1) = py "1"
  /\ forall z, Constant (CStr (py_str (PyInt z))) <> Constant (CInt z).
Proof.
  intros Hm. split; [|split; [reflexivity|discriminate]].
  apply generate_module_body in Hm.
  apply declarations_built in Hm as (ovs & Hovs & Hfs).
  destruct (overloads_are_functions _ _ Hovs) as [Hlen _].
  assert (E : firstn (length (mapping self)) (module_body m) = ovs).
  { destruct include_implementation.
    - destruct Hfs as (impl & _ & ->).
      rewrite <- Hlen, firstn_app, Nat.sub_diag, firstn_all. simpl.
      apply app_nil_r.
    - rewrite Hfs, <- Hlen. apply firstn_all. }
  rewrite E. apply overloads_in_order in Hovs.
  eapply Forall2_impl; [|exact Hovs].
  intros kv f (_ & _ & _ & _ & Hd). eexists. split; [exact Hd|reflexivity].
Qed.

Lemma Forall2_right {A B} (R : A -> B -> Prop) (P : B -> Prop) l l' :
  Forall2 R l l' -> (forall a b, R a b -> P b) -> Forall P l'.
Proof.
  intros H HP. induction H as [|a b l l' Hab _ IH]; constructor;
    [exact (HP a b Hab)|exact IH].
Qed.

Lemma receiver_leads self f :
  has_self self = true -> is_function f = true ->
  (exists key extra, stmt_args f = receiver self ++ key :: extra) ->
  leading_self f.
Proof.
  intros Hs Hf (key & extra & E). split; [exact Hf|].
  rewrite E. unfold receiver. rewrite Hs. reflexivity.
Qed.

Lemma declarations_lead_with_receiver self include_implementation body fs :
  has_self self = true ->
  declarations ast_parse self include_implementation body = Returns fs ->
  Forall leading_self fs.
Proof.
  intros Hs H. apply declarations_built in H as (ovs & Hovs & Hfs).
  assert (Ho : Forall leading_self ovs).
  { apply comprehension_Forall2 in Hovs.
    apply (Forall2_right _ _ _ _ Hovs). intros kv f Hf.
    apply overload_built in Hf as (Hf & _ & _ & _ & _ & _ & (ex & _ & E) & _).
    apply (receiver_leads self); eauto. }
  destruct include_implementation; [|subst; exact Ho].
  destruct Hfs as (impl & Himpl & ->). apply Forall_app. split; [exact Ho|].
  constructor; [|constructor].
  apply implementation_built in Himpl as (Hf & _ & _ & _ & (ex & E) & _).
  apply (receiver_leads self); eauto.
Qed.

(** C10.  [ClassMethodOverloadGenerator] sets [has_self] to true whatever
    its arguments are, [has_self=False] included, so that each method it
    declares, overload or implementation, in [generate] and in
    [generate_class], starts with the receiver [self] without annotation. *)
Theorem class_methods_have_receiver (name : str) (a : init_args) :
  has_self (super (ClassMethodOverloadGenerator name a)) = true
  /\ (forall include_implementation body m,
        generate_module ast_parse
          (super (ClassMethodOverloadGenerator name a))
          include_implementation body = Returns m ->
        Forall leading_self (module_body m))
  /\ (forall include_implementation body include_docstring m,
        generate_class_module ast_parse (ClassMethodOverloadGenerator name a)
          include_implementation body include_docstring = Returns m ->
        exists methods,
          declarations ast_parse (super (ClassMethodOverloadGenerator name a))
            include_implementation body = Returns methods
          /\ Forall leading_self methods
          /\ m = Module
                   [ClassDef name [] []
                      ((if include_docstring
                        then [Expr (Constant (CStr (name ++ [SPACE; 31867%N])))]
                        else []) ++ methods) []] []).
Proof.
  split; [reflexivity|]. split.
  - intros incl body m Hm. apply generate_module_body in Hm.
    eapply declarations_lead_with_receiver; [|exact Hm]. reflexivity.
  - intros incl body doc m. unfold generate_class_module.
    destruct (declarations _ _ _ _) as [methods|x] eqn:Hd; cbn [bind];
      [|discriminate].
    intros H. injection H as <-. exists methods.
    split; [reflexivity|].
    split; [eapply declarations_lead_with_receiver; [|exact Hd]; reflexivity|].
    destruct doc; reflexivity.
Qed.

End Assembly.

Lemma declaration_count_witness :
  generation_parses reject_all abc_generator true None = true
  /\ exists m,
       generate_module reject_all abc_generator true None = Returns m
       /\ length (module_body m) = 4%nat
       /\ Forall (fun f => is_function f = true) (module_body m).
Proof.
  split; [reflexivity|].
  destruct (declaration_count reject_all abc_generator true None)
    as (Hcount & _ & Hreturns).
  destruct Hreturns as [m Hm]; [reflexivity|].
  exists m. split; [exact Hm|].
  destruct (Hcount m Hm) as (Hlen & Hfun & _). split; [exact Hlen|exact Hfun].
Defined.

(** C4, as stated, fails on ['x[]'] as a mapping value: the mapping has one
    entry and [generate] builds no module, it raises [IndexError]. *)
Lemma empty_group_generator_raises :
  generate_module reject_all empty_group_generator false None
  = Raises IndexError
  /\ generate reject_all print_nothing empty_group_generator false None
     = Raises IndexError
  /\ ~ exists m,
         generate_module reject_all empty_group_generator false None
         = Returns m
         /\ length (module_body m) = length (mapping empty_group_generator).
Proof.
  assert (E : generate_module reject_all empty_group_generator false None
              = Raises IndexError) by (vm_compute; reflexivity).
  split; [exact E|]. split; [vm_compute; reflexivity|].
  intros (m & H & _). rewrite E in H. discriminate.
Qed.

Lemma overloads_follow_mapping_witness :
  exists m fa fb fc rest,
    generate_module reject_all abc_generator true None = Returns m
    /\ module_body m = [fa; fb; fc] ++ rest
    /\ overload_of abc_generator (PyStr (py "a")) fa
    /\ overload_of abc_generator (PyStr (py "b")) fb
    /\ overload_of abc_generator (PyStr (py "c")) fc
    /\ length rest = 1%nat.
Proof.
  destruct (overloads_follow_mapping reject_all abc_generator true None)
    as (_ & _ & Habc).
  destruct (generate_module reject_all abc_generator true None)
    as [m|e] eqn:E; [|vm_compute in E; discriminate].
  destruct (Habc _ _ _ m eq_refl eq_refl) as (fa & fb & fc & rest & H).
  exists m, fa, fb, fc, rest. split; [reflexivity|exact H].
Defined.

(** C5, as stated, fails on a mapping with the keys ["a"], ["b"], ["c"]
    whose second value is ['list[]']: no overload is generated, [generate]
    raises [IndexError]. *)
Lemma abc_malformed_generator_raises :
  generate_module reject_all abc_malformed_generator false None
  = Raises IndexError
  /\ ~ exists m,
         generate_module reject_all abc_malformed_generator false None
         = Returns m.
Proof.
  assert (E : generate_module reject_all abc_malformed_generator false None
              = Raises IndexError) by (vm_compute; reflexivity).
  split; [exact E|]. intros (m & H). rewrite E in H. discriminate.
Qed.

Lemma key_coerced_to_string_witness :
  exists m,
    generate_module reject_all mixed_generator false None = Returns m
    /\ Forall2
         (fun kv f =>
            exists a,
              discriminant mixed_generator f = Some a
              /\ annotation a
                 = Some (Subscript (Name (py "Literal"))
                           (Constant (CStr (py_str (fst kv))))))
         [(PyInt 1, PyStr (py "int"));
          (PyStr (py "two"), PyOther (py "<object object at 0x7f>"))]
         (firstn 2 (module_body m)).
Proof.
  destruct (generate_module reject_all mixed_generator false None)
    as [m|e] eqn:E; [|vm_compute in E; discriminate].
  exists m. split; [reflexivity|].
  exact (proj1 (key_coerced_to_string reject_all mixed_generator false None
                  m E)).
Defined.

Lemma class_methods_have_receiver_witness :
  init_has_self class_arguments = Some false
  /\ has_self (super (ClassMethodOverloadGenerator (py "C") class_arguments))
     = true
  /\ exists m methods,
       generate_class_module reject_all
         (ClassMethodOverloadGenerator (py "C") class_arguments)
         true None true = Returns m
       /\ length methods = 2%nat
       /\ Forall leading_self methods.
Proof.
  split; [reflexivity|].
  destruct (class_methods_have_receiver reject_all (py "C") class_arguments)
    as (Hself & _ & Hclass).
  split; [exact Hself|].
  destruct (generate_class_module reject_all
              (ClassMethodOverloadGenerator (py "C") class_arguments)
              true None true) as [m|e] eqn:E;
    [|vm_compute in E; discriminate].
  destruct (Hclass true None true m E) as (methods & Hd & Hlead & _).
  exists m, methods. split; [reflexivity|]. split; [|exact Hlead].
  vm_compute in Hd. injection Hd as <-. reflexivity.
Defined.

(** ** The builder *)

Lemma parse_base_name b :
  base_name b = true -> _create_type_annotation b = Returns (Name b).
Proof.
  intros H. apply (parse_serialized (Node b [])). simpl.
  rewrite H. reflexivity.
Qed.

(** C6.  With the return type resolved from the mapping, resolution is a
    total function: the declared name of a class, the string itself for a
    string, the configured fallback for any other value.  The return
    annotation of the overload built for the entry is that name parsed as a
    type expression; for the fallback, when it is a plain name, it is that
    name. *)
Theorem fallback_policy (self : generator) (value : pyobj) :
  return_type_from_mapping self = true ->
  _get_return_type_name self value
  = match value with
    | PyType name _ => name
    | PyStr s => s
    | PyInt _ | PyOther _ => return_type_fallback self
    end
  /\ (forall key f,
        overload_entry self (key, value) = Returns f ->
        exists r,
          stmt_returns f = Some r
          /\ _create_type_annotation
               match value with
               | PyType name _ => name
               | PyStr s => s
               | PyInt _ | PyOther _ => return_type_fallback self
               end = Returns r)
  /\ (forall key f,
        match value with
        | PyType _ _ | PyStr _ => False
        | PyInt _ | PyOther _ => True
        end ->
        base_name (return_type_fallback self) = true ->
        overload_entry self (key, value) = Returns f ->
        stmt_returns f = Some (Name (return_type_fallback self))).
Proof.
  intros Hflag.
  assert (E : _get_return_type_name self value
              = match value with
                | PyType name _ => name
                | PyStr s => s
                | PyInt _ | PyOther _ => return_type_fallback self
                end).
  { unfold _get_return_type_name. rewrite Hflag. reflexivity. }
  split; [exact E|]. split.
  - intros key f H. unfold overload_entry in H. simpl in H.
    apply overload_built in H as (_ & _ & _ & _ & _ & (r & Hr & Hp) & _).
    exists r. rewrite <- E. split; assumption.
  - intros key f Hv Hb H. unfold overload_entry in H. simpl in H.
    apply overload_built in H as (_ & _ & _ & _ & _ & (r & Hr & Hp) & _).
    rewrite E in Hp.
    assert (Hf : _create_type_annotation (return_type_fallback self)
                 = Returns r) by (destruct value; [contradiction..| |]; exact Hp).
    rewrite (parse_base_name _ Hb) in Hf. injection Hf as <-. exact Hr.
Qed.

Lemma fallback_policy_witness :
  return_type_from_mapping mixed_generator = true
  /\ _get_return_type_name mixed_generator
       (PyOther (py "<object object at 0x7f>")) = py "Any"
  /\ exists f,
       overload_entry mixed_generator
         (PyStr (py "two"), PyOther (py "<object object at 0x7f>"))
       = Returns f
       /\ stmt_returns f = Some (Name (py "Any")).
Proof.
  split; [reflexivity|].
  destruct (fallback_policy mixed_generator
              (PyOther (py "<object object at 0x7f>")) eq_refl)
    as (Hname & _ & Hfallback).
  split; [exact Hname|].
  destruct (overload_entry mixed_generator
              (PyStr (py "two"), PyOther (py "<object object at 0x7f>")))
    as [f|e] eqn:E; [|vm_compute in E; discriminate].
  exists f. split; [reflexivity|].
  exact (Hfallback (PyStr (py "two")) f I eq_refl E).
Defined.

(** C7.  The scenario: the two declarations of the mapping
    [{'json': 'Dict[String, Any]', 'xml': 'String'}], both bearing the
    function name, the overload marker and the placeholder body, with the
    parameters [format: Literal['json'], data: Bytes] returning
    [Dict[String, Any]] and [format: Literal['xml'], data: Bytes] returning
    [String].  With resolution disabled the return type name is the text
    [str(value)] of the mapping value, a class included. *)
Theorem scenario (ast_parse : str -> result module_)
    (function_name fallback : str) (body : option str)
    (self : generator) (value : pyobj) :
  generate_module ast_parse (scenario_generator function_name fallback)
    false body
  = Returns
      (Module
         [FunctionDef function_name (scenario_arguments (py "json"))
            [Expr (Constant CEllipsis)] [Name (py "overload")]
            (Subscript (Name (py "Dict"))
               (Tuple [Name (py "String"); Name (py "Any")]));
          FunctionDef function_name (scenario_arguments (py "xml"))
            [Expr (Constant CEllipsis)] [Name (py "overload")]
            (Name (py "String"))]
         [])
  /\ type_node (Subscript (Name (py "Dict"))
                  (Tuple [Name (py "String"); Name (py "Any")]))
     = Some (Node (py "Dict") [Node (py "String") []; Node (py "Any") []])
  /\ serialize (Node (py "Dict") [Node (py "String") []; Node (py "Any") []])
     = py "Dict[String, Any]"
  /\ (return_type_from_mapping self = false ->
      _get_return_type_name self value = py_str value).
Proof.
  split; [vm_compute; reflexivity|].
  split; [reflexivity|]. split; [reflexivity|].
  intros H. unfold _get_return_type_name. rewrite H. reflexivity.
Qed.

Lemma scenario_witness :
  return_type_from_mapping (scenario_generator (py "parse_data") (py "Any"))
  = false
  /\ _get_return_type_name (scenario_generator (py "parse_data") (py "Any"))
       (PyType (py "Foo") (py "<class 'm.Foo'>"))
     = py "<class 'm.Foo'>".
Proof.
  split; [reflexivity|].
  exact (proj2 (proj2 (proj2
    (scenario reject_all (py "parse_data") (py "Any") None
       (scenario_generator (py "parse_data") (py "Any"))
       (PyType (py "Foo") (py "<class 'm.Foo'>"))))) eq_refl).
Defined.

(** * Further properties of the parser *)

Lemma rstrip_by_all p s : forallb p s = true -> rstrip_by p s = [].
Proof.
  induction s as [|c s IH]; simpl; intros H; [reflexivity|].
  apply andb_true_iff in H as [Hc Hs]. rewrite (IH Hs), Hc. reflexivity.
Qed.

Lemma strip_skip ws x : forallb isspace ws = true -> strip (ws ++ x) = strip x.
Proof.
  intros H. unfold strip. rewrite rstrip_by_app.
  destruct (rstrip_by isspace x) as [|c r].
  - rewrite (rstrip_by_all _ _ H). reflexivity.
  - apply lstrip_by_skip, H.
Qed.

Lemma split_first_skip sep ws s :
  forallb (fun c => negb (c =? sep)%N) ws = true ->
  split_first sep (ws ++ s)
  = match split_first sep s with
    | Some (b, a) => Some (ws ++ b, a)
    | None => None
    end.
Proof.
  induction ws as [|c ws IH]; simpl; intros H.
  - destruct (split_first sep s) as [[b a]|]; reflexivity.
  - apply andb_true_iff in H as [Hc Hs]. apply negb_true_iff in Hc.
    rewrite Hc, (IH Hs).
    destruct (split_first sep s) as [[b a]|]; reflexivity.
Qed.

Lemma split_first_more sep s t base args :
  split_first sep s = Some (base, args) ->
  split_first sep (s ++ t) = Some (base, args ++ t).
Proof.
  revert base. induction s as [|c s IH]; simpl; intros base H; [discriminate|].
  destruct (c =? sep)%N.
  - injection H as <- <-. reflexivity.
  - destruct (split_first sep s) as [[b a]|]; [|discriminate].
    injection H as <- <-. rewrite (IH b eq_refl). reflexivity.
Qed.

Lemma split_first_in sep s :
  In sep s -> exists base args, split_first sep s = Some (base, args).
Proof.
  induction s as [|c s IH]; simpl; intros H; [contradiction|].
  destruct (N.eqb_spec c sep) as [E|E]; [eauto|].
  destruct H as [H|H]; [contradiction|].
  destruct (IH H) as (b & a & ->). eauto.
Qed.

Lemma space_not_bracket ws :
  forallb isspace ws = true ->
  forallb (fun c => negb (c =? LBRACKET)%N) ws = true.
Proof.
  intros H. apply forallb_forall. intros c Hc.
  rewrite forallb_forall in H. specialize (H c Hc).
  destruct (N.eqb_spec c LBRACKET) as [->|_]; [discriminate|reflexivity].
Qed.

(** X1.  Whitespace before a type text is ignored, whatever the text is. *)
Theorem leading_whitespace_ignored (ws type_str : str) :
  forallb isspace ws = true ->
  _create_type_annotation (ws ++ type_str)
  = _create_type_annotation type_str.
Proof.
  intros H.
  rewrite (_create_type_annotation_eq (ws ++ type_str)),
    (_create_type_annotation_eq type_str).
  rewrite (split_first_skip _ _ _ (space_not_bracket _ H)).
  destruct (split_first LBRACKET type_str) as [[base args]|].
  - rewrite (strip_skip _ _ H). reflexivity.
  - rewrite (strip_skip _ _ H). reflexivity.
Qed.

Lemma leading_whitespace_ignored_witness :
  _create_type_annotation (py "  dict[str, Any]")
  = _create_type_annotation (py "dict[str, Any]").
Proof.
  exact (leading_whitespace_ignored (py "  ") (py "dict[str, Any]") eq_refl).
Defined.

Lemma more_closing_brackets type_str k :
  In LBRACKET type_str ->
  _create_type_annotation (type_str ++ repeat RBRACKET k)
  = _create_type_annotation type_str.
Proof.
  intros H. destruct (split_first_in _ _ H) as (base & args & Hs).
  rewrite (_create_type_annotation_eq (type_str ++ repeat RBRACKET k)),
    (_create_type_annotation_eq type_str).
  rewrite (split_first_more _ _ (repeat RBRACKET k) _ _ Hs), Hs.
  assert (E : rstrip_brackets (args ++ repeat RBRACKET k)
              = rstrip_brackets args).
  { unfold rstrip_brackets. rewrite rstrip_by_app, rstrip_by_all; [reflexivity|].
    apply forallb_forall. intros c Hc. apply repeat_spec in Hc. subst c.
    reflexivity. }
  rewrite E. reflexivity.
Qed.

(** X2.  Brackets are never checked for balance: on a text with an opening
    bracket any number of closing brackets added at the end changes
    nothing. *)
Theorem trailing_brackets_ignored (type_str : str) (k : nat) :
  In LBRACKET type_str ->
  _create_type_annotation (type_str ++ repeat RBRACKET k)
  = _create_type_annotation type_str.
Proof. apply more_closing_brackets. Qed.

Lemma trailing_brackets_ignored_witness :
  _create_type_annotation (py "list[int]]]")
  = _create_type_annotation (py "list[int").
Proof.
  apply (trailing_brackets_ignored (py "list[int") 3).
  vm_compute. auto 10.
Defined.

Lemma rstrip_by_ends p s :
  rstrip_by p s = []
  \/ exists x d, rstrip_by p s = x ++ [d] /\ p d = false.
Proof.
  induction s as [|c s IH]; simpl; [left; reflexivity|].
  destruct (rstrip_by p s) as [|e l].
  - destruct (p c) eqn:Hc; [left; reflexivity|].
    right. exists [], c. split; [reflexivity|exact Hc].
  - right. destruct IH as [IH|(x & d & E & Hd)]; [discriminate|].
    exists (c :: x), d. rewrite E. split; [reflexivity|exact Hd].
Qed.

Lemma lstrip_by_keep_last p x d :
  p d = false -> exists y, lstrip_by p (x ++ [d]) = y ++ [d].
Proof.
  intros Hd. induction x as [|a x IH]; simpl.
  - rewrite Hd. exists []. reflexivity.
  - destruct (p a); [exact IH|]. exists (a :: x). reflexivity.
Qed.

Lemma lstrip_by_head p s :
  lstrip_by p s = [] \/ exists c r, lstrip_by p s = c :: r /\ p c = false.
Proof.
  induction s as [|c s IH]; simpl; [left; reflexivity|].
  destruct (p c) eqn:Hc; [exact IH|]. right. eauto.
Qed.

(** Stripping twice is stripping once. *)
Lemma strip_idem s : strip (strip s) = strip s.
Proof.
  unfold strip at 2 3.
  destruct (rstrip_by_ends isspace s) as [->|(x & d & -> & Hd)];
    [reflexivity|].
  destruct (lstrip_by_keep_last isspace x d Hd) as [y Ey].
  destruct (lstrip_by_head isspace (x ++ [d])) as [E|(c & r & E & Hc)].
  - rewrite E in Ey. destruct y; discriminate.
  - unfold strip. rewrite Ey, rstrip_by_keep by exact Hd.
    rewrite <- Ey, E. simpl. rewrite Hc. reflexivity.
Qed.

Lemma type_node_single b x n :
  type_node x = Some n ->
  type_node (Subscript (Name b) x) = Some (Node b [n]).
Proof.
  intros H. destruct x as [id|v sl|elts|c]; try discriminate.
  - simpl in *. injection H as <-. reflexivity.
  - change (type_node (Subscript (Name b) (Subscript v sl)))
      with (match type_node (Subscript v sl) with
            | Some a => Some (Node b [a])
            | None => None
            end).
    rewrite H. reflexivity.
Qed.

Lemma all_some_nodes xs :
  Forall (fun e => exists n, type_node e = Some n /\ stripped_node n) xs ->
  exists ns,
    all_some (map type_node xs) = Some ns
    /\ length ns = length xs /\ Forall stripped_node ns.
Proof.
  induction 1 as [|e xs (n & Hn & Hs) _ (ns & E & Hlen & Hall)].
  - exists []. repeat split; constructor.
  - exists (n :: ns). simpl. rewrite Hn, E, Hlen.
    repeat split. constructor; assumption.
Qed.

Lemma parse_shape_bounded k : forall s e,
  (length s < k)%nat ->
  _create_type_annotation s = Returns e ->
  exists n, type_node e = Some n /\ stripped_node n.
Proof.
  induction k as [|k IH]; intros s e Hk; [lia|].
  rewrite _create_type_annotation_eq.
  destruct (split_first LBRACKET s) as [[base args]|] eqn:Hs.
  2:{ intros H. injection H as <-. eexists. split; [reflexivity|].
      constructor; [apply strip_idem|constructor]. }
  cbv zeta.
  assert (Hseg : forall seg x, In seg (split_args (rstrip_brackets args)) ->
            _create_type_annotation seg = Returns x ->
            exists n, type_node x = Some n /\ stripped_node n).
  { intros seg x Hin. pose proof (segment_shorter _ _ _ _ Hs Hin).
    apply IH. lia. }
  destruct (1 <? length (split_args (rstrip_brackets args)))%nat eqn:Hlen.
  - destruct (comprehension _ _) as [xs|x] eqn:Hc; cbn [bind]; [|discriminate].
    intros H. injection H as <-.
    apply comprehension_Forall2 in Hc.
    assert (Hxs : Forall (fun e => exists n,
                    type_node e = Some n /\ stripped_node n) xs
                  /\ length xs = length (split_args (rstrip_brackets args))).
    { clear Hlen. induction Hc as [|seg x l xs' Hx _ IHc].
      - split; constructor.
      - destruct IHc as [IH1 IH2].
        { intros seg' x' Hin. apply Hseg. right. exact Hin. }
        split; [|simpl; rewrite IH2; reflexivity].
        constructor; [|exact IH1].
        apply (Hseg seg x); [left; reflexivity|exact Hx]. }
    destruct Hxs as [Hxs Hl].
    destruct (all_some_nodes xs Hxs) as (ns & E & Hn & Hall).
    change (type_node (Subscript (Name (strip base)) (Tuple xs)))
      with (match all_some (map type_node xs) with
            | Some (a :: b :: r) => Some (Node (strip base) (a :: b :: r))
            | _ => None
            end).
    rewrite E. apply Nat.ltb_lt in Hlen.
    destruct ns as [|a [|b r]]; simpl in Hn; [lia|lia|].
    eexists. split; [reflexivity|].
    constructor; [apply strip_idem|exact Hall].
  - destruct (split_args (rstrip_brackets args)) as [|a l]; [discriminate|].
    destruct (_create_type_annotation a) as [x|y] eqn:Ha; cbn [bind];
      [|discriminate].
    intros H. injection H as <-.
    destruct (Hseg a x (or_introl eq_refl) Ha) as (n & Hn & Hst).
    exists (Node (strip base) [n]). split; [apply type_node_single, Hn|].
    constructor; [apply strip_idem|constructor; [exact Hst|constructor]].
Qed.

(** X3.  Whatever the text, a tree the parser returns is the tree of a type
    node: a [Name], or a [Name] subscripted by such a tree or by a [Tuple]
    of at least two such trees; and no name in it starts or ends with
    whitespace. *)
Theorem parsed_tree_is_type_node (type_str : str) (e : expr) :
  _create_type_annotation type_str = Returns e ->
  exists n, type_node e = Some n /\ stripped_node n.
Proof. apply (parse_shape_bounded (S (length type_str))). lia. Qed.

Lemma parsed_tree_is_type_node_witness :
  exists n,
    type_node (Subscript (Name (py "dict"))
                 (Tuple [Name (py "str"); Name (py "Any ]")])) = Some n
    /\ stripped_node n.
Proof.
  apply (parsed_tree_is_type_node (py " dict [ str , Any ] ")).
  vm_compute. reflexivity.
Defined.

(** * Further properties of the builder and of the assembler *)

Lemma params_built params : forall extra,
  comprehension param_arg params = Returns extra ->
  Forall2 (fun p a =>
             arg_name a = fst p
             /\ exists t, annotation a = Some t
                          /\ _create_type_annotation (snd p) = Returns t)
    params extra.
Proof.
  intros extra H. apply comprehension_Forall2 in H.
  eapply Forall2_impl; [|exact H].
  intros p a Ha. unfold param_arg in Ha.
  destruct (_create_type_annotation (snd p)) as [t|x]; [|discriminate].
  injection Ha as <-. split; [reflexivity|]. exists t. split; reflexivity.
Qed.

(** X4.  Building a parameter list fails exactly when the type text of an
    additional parameter has a bracket group without argument, and then
    with [IndexError]; the receiver and the key parameter never make it
    fail. *)
Theorem arguments_outcome (self : generator) (literal_value : option str) :
  (Exists bad_param (additional_params self)
   /\ _create_arguments self literal_value = Raises IndexError)
  \/ (Forall (fun p => ~ bad_param p) (additional_params self)
      /\ exists a,
           _create_arguments self literal_value = Returns a
           /\ length (args a)
              = (length (receiver self) + 1
                 + length (additional_params self))%nat).
Proof.
  destruct (arguments_outcome_aux self literal_value) as [H|[Hf [a Ha]]];
    [left; exact H|right].
  split; [exact Hf|]. exists a. split; [exact Ha|].
  rewrite _create_arguments_spec in Ha.
  destruct (comprehension param_arg _) as [extra|x] eqn:Hc; [|discriminate].
  injection Ha as <-. simpl args. apply params_built in Hc.
  apply Forall2_length in Hc. rewrite length_app. simpl. lia.
Qed.

Section FurtherAssembly.

Variable ast_parse : str -> result module_.
Variable ast_unparse : module_ -> str.

(** X5.  Without implementation [generate] fails exactly when the mapping
    is not empty and the type text of an additional parameter or the return
    type resolved for a mapping value has a bracket group without argument;
    it then raises [IndexError].  With an empty mapping it never fails,
    whatever the parameter types are. *)
Theorem generate_outcome (self : generator) (body : option str) :
  let bad :=
    mapping self <> []
    /\ (Exists bad_param (additional_params self)
        \/ Exists (bad_return self) (mapping self)) in
  (bad /\ generate_module ast_parse self false body = Raises IndexError)
  \/ (~ bad
      /\ exists m, generate_module ast_parse self false body = Returns m).
Proof.
  cbv zeta. unfold generate_module, declarations.
  rewrite append_overloads_spec.
  destruct (comprehension_outcome (overload_entry self)
              (fun kv => Exists bad_param (additional_params self)
                         \/ bad_return self kv)
              (mapping self)
              (fun kv _ => overload_outcome self (py_str (fst kv))
                             (_get_return_type_name self (snd kv))))
    as [[He ->]|[Hf [ovs ->]]].
  - left. split; [|reflexivity].
    apply Exists_exists in He as (kv & Hin & Hq).
    split; [intros E; rewrite E in Hin; contradiction|].
    destruct Hq as [Hq|Hq]; [left; exact Hq|right].
    apply Exists_exists. exists kv. split; assumption.
  - right. split; [|eexists; reflexivity].
    intros [Hne [Hb|Hb]].
    + destruct (mapping self) as [|kv l]; [contradiction|].
      inversion Hf as [|? ? Hkv _]; subst. apply Hkv. left. exact Hb.
    + apply Exists_exists in Hb as (kv & Hin & Hq).
      rewrite Forall_forall in Hf. apply (Hf kv Hin). right. exact Hq.
Qed.

Lemma declarations_count self include_implementation body fs :
  declarations ast_parse self include_implementation body = Returns fs ->
  length fs
  = (length (mapping self) + if include_implementation then 1 else 0)%nat.
Proof.
  intros H. apply declarations_built in H as (ovs & Hovs & Hfs).
  destruct (overloads_are_functions _ _ Hovs) as [Hlen _].
  destruct include_implementation.
  - destruct Hfs as (impl & _ & ->). rewrite length_app, Hlen. reflexivity.
  - subst. lia.
Qed.

Lemma declaration_signature self f key :
  (exists extra,
     comprehension param_arg (additional_params self) = Returns extra
     /\ stmt_args f = receiver self ++ key :: extra) ->
  exists extra,
    stmt_args f = receiver self ++ key :: extra
    /\ Forall2 (fun p a =>
                  arg_name a = fst p
                  /\ exists t, annotation a = Some t
                               /\ _create_type_annotation (snd p) = Returns t)
         (additional_params self) extra.
Proof.
  intros (extra & Hc & E). exists extra. split; [exact E|].
  apply params_built, Hc.
Qed.

(** X6.  The parameters of every generated declaration, overload or
    implementation, come in one order: the receiver when there is one, the
    key parameter under its configured name, then the additional parameters
    in the configured order, each under its configured name and annotated
    with its parsed type. *)
Theorem parameters_in_order (self : generator)
    (include_implementation : bool) (body : option str) (m : module_) :
  generate_module ast_parse self include_implementation body = Returns m ->
  Forall
    (fun f =>
       exists key extra,
         stmt_args f = receiver self ++ key :: extra
         /\ arg_name key = key_param self
         /\ Forall2
              (fun p a =>
                 arg_name a = fst p
                 /\ exists t,
                      annotation a = Some t
                      /\ _create_type_annotation (snd p) = Returns t)
              (additional_params self) extra)
    (module_body m).
Proof.
  intros Hm. apply generate_module_body in Hm.
  apply declarations_built in Hm as (ovs & Hovs & Hfs).
  assert (Ho : Forall
    (fun f =>
       exists key extra,
         stmt_args f = receiver self ++ key :: extra
         /\ arg_name key = key_param self
         /\ Forall2
              (fun p a =>
                 arg_name a = fst p
                 /\ exists t,
                      annotation a = Some t
                      /\ _create_type_annotation (snd p) = Returns t)
              (additional_params self) extra) ovs).
  { apply comprehension_Forall2 in Hovs.
    apply (Forall2_right _ _ _ _ Hovs). intros kv f Hf.
    apply overload_built in Hf as (_ & _ & _ & _ & _ & _ & Hsig & _).
    destruct (declaration_signature _ _ _ Hsig) as (extra & E & Hx).
    eexists _, extra. split; [exact E|]. split; [reflexivity|exact Hx]. }
  destruct include_implementation; [|subst; exact Ho].
  destruct Hfs as (impl & Himpl & ->). apply Forall_app. split; [exact Ho|].
  constructor; [|constructor].
  unfold _create_implementation_function in Himpl.
  destruct (match body with
            | Some (c :: code) => _
            | _ => _
            end) as [b|x]; cbn [bind] in Himpl; [|discriminate].
  rewrite _create_arguments_spec in Himpl.
  destruct (comprehension param_arg _) as [extra|x] eqn:Hc;
    cbn [bind] in Himpl; [|discriminate].
  destruct (_create_type_annotation (return_type_fallback self)) as [r|x];
    cbn [bind] in Himpl; [|discriminate].
  injection Himpl as <-.
  match goal with
  | |- context [func_class ?s ?n ?a ?b ?d ?r] =>
      destruct (func_class_function s n a b d r) as (_ & _ & H3 & _)
  end.
  eexists _, extra. rewrite H3. simpl args.
  split; [reflexivity|]. split; [reflexivity|apply params_built, Hc].
Qed.

Lemma implementation_body_built self body_code f :
  _create_implementation_function ast_parse self body_code = Returns f ->
  match body_code with
  | Some (c :: code) =>
      exists body_module,
        ast_parse (c :: code) = Returns body_module
        /\ stmt_body f = module_body body_module
  | _ => stmt_body f = placeholder
  end.
Proof.
  unfold _create_implementation_function.
  assert (G : forall b,
    (a <- _create_arguments self None ;;
     r <- _create_type_annotation (return_type_fallback self) ;;
     Returns (func_class self (function_name self) a b [] r)) = Returns f ->
    stmt_body f = b).
  { intros b. destruct (_create_arguments self None) as [a|x]; cbn [bind];
      [|discriminate].
    destruct (_create_type_annotation _) as [r|x]; cbn [bind]; [|discriminate].
    intros H. injection H as <-.
    destruct (func_class_function self (function_name self) a b [] r)
      as (_ & _ & _ & H4 & _). exact H4. }
  destruct body_code as [[|c code]|]; cbn [bind]; try (apply G).
  destruct (ast_parse (c :: code)) as [bm|x]; cbn [bind]; [|discriminate].
  intros H. exists bm. split; [reflexivity|apply G, H].
Qed.

(** X7.  Asking for the implementation leaves the overloads as they are:
    the module is the module built without implementation followed by one
    declaration, which bears no marker, has the key parameter annotated
    [str], returns the parsed fallback type, and whose body is the
    placeholder for no body text or an empty one and otherwise the
    statements [ast.parse] returns for the text. *)
Theorem implementation_appended (self : generator) (body body' : option str)
    (m : module_) :
  generate_module ast_parse self true body = Returns m ->
  exists overloads impl,
    generate_module ast_parse self false body' = Returns (Module overloads [])
    /\ m = Module (overloads ++ [impl]) []
    /\ stmt_name impl = function_name self
    /\ stmt_decorators impl = []
    /\ discriminant self impl
       = Some {| arg_name := key_param self;
                 annotation := Some (Name (py "str")) |}
    /\ (exists r,
          stmt_returns impl = Some r
          /\ _create_type_annotation (return_type_fallback self) = Returns r)
    /\ match body with
       | Some (c :: code) =>
           exists body_module,
             ast_parse (c :: code) = Returns body_module
             /\ stmt_body impl = module_body body_module
       | _ => stmt_body impl = placeholder
       end.
Proof.
  unfold generate_module.
  destruct (declarations ast_parse self true body) as [fs|x] eqn:Hd;
    cbn [bind]; [|discriminate].
  intros H. injection H as <-.
  pose proof Hd as Hb. apply declarations_built in Hb as (ovs & Hovs & Hfs).
  destruct Hfs as (impl & Himpl & ->). exists ovs, impl.
  split.
  { unfold declarations. rewrite append_overloads_spec, Hovs. reflexivity. }
  split; [reflexivity|].
  pose proof (implementation_built _ _ _ _ Himpl)
    as (_ & Hn & Hdec & Hdisc & _ & Hret).
  pose proof (implementation_body_built _ _ _ Himpl) as Hbody.
  auto 10.
Qed.

(** X8.  Every generated declaration is asynchronous when
    the generator is and synchronous when it is not. *)
Theorem declarations_follow_async_flag (self : generator)
    (include_implementation : bool) (body : option str) (m : module_) :
  generate_module ast_parse self include_implementation body = Returns m ->
  Forall (fun f => is_function f = true /\ is_async_def f = is_async self)
    (module_body m).
Proof.
  intros Hm. apply generate_module_body in Hm.
  apply declarations_built in Hm as (ovs & Hovs & Hfs).
  assert (Ho : Forall (fun f => is_function f = true
                                /\ is_async_def f = is_async self) ovs).
  { apply comprehension_Forall2 in Hovs.
    apply (Forall2_right _ _ _ _ Hovs). intros kv f Hf.
    apply overload_built in Hf as (H1 & _ & _ & _ & _ & _ & _ & H8).
    split; assumption. }
  destruct include_implementation; [|subst; exact Ho].
  destruct Hfs as (impl & Himpl & ->). apply Forall_app. split; [exact Ho|].
  constructor; [|constructor].
  unfold _create_implementation_function in Himpl.
  destruct (match body with
            | Some (c :: code) => _
            | _ => _
            end) as [b|x]; cbn [bind] in Himpl; [|discriminate].
  destruct (_create_arguments self None) as [a|x]; cbn [bind] in Himpl;
    [|discriminate].
  destruct (_create_type_annotation (return_type_fallback self)) as [r|x];
    cbn [bind] in Himpl; [|discriminate].
  injection Himpl as <-.
  destruct (func_class_function self (function_name self) a b [] r)
    as (H1 & _ & _ & _ & _ & _ & H7). split; assumption.
Qed.

Lemma NoDup_map_injective {A B} (f : A -> B) l :
  (forall x y, f x = f y -> x = y) -> NoDup l -> NoDup (map f l).
Proof.
  intros Hf H. induction H as [|x l Hx _ IH]; simpl; constructor; [|exact IH].
  intros Hin. apply in_map_iff in Hin as (y & E & Hy).
  apply Hf in E. subst y. exact (Hx Hy).
Qed.

Lemma overload_discriminants self ovs :
  comprehension (overload_entry self) (mapping self) = Returns ovs ->
  map (discriminant self) ovs
  = map (fun kv => Some (literal_arg self (fst kv))) (mapping self).
Proof.
  intros H. apply overloads_in_order in H.
  induction H as [|kv f l fs Hf _ IH]; [reflexivity|].
  simpl. rewrite IH. destruct Hf as (_ & _ & _ & _ & ->). reflexivity.
Qed.

(** X9.  Two overloads of a generated module bear the same narrowed key
    parameter exactly when their keys have the same string form: the
    narrowings are pairwise distinct if and only if the string forms of the
    keys are. *)
Theorem narrowings_distinct_iff (self : generator) (body : option str)
    (m : module_) :
  generate_module ast_parse self false body = Returns m ->
  NoDup (map (discriminant self) (module_body m))
  <-> NoDup (map (fun kv => py_str (fst kv)) (mapping self)).
Proof.
  intros Hm. apply generate_module_body in Hm.
  apply declarations_built in Hm as (ovs & Hovs & <-).
  rewrite (overload_discriminants _ _ Hovs).
  assert (E : map (fun kv => Some (literal_arg self (fst kv))) (mapping self)
              = map (fun s => Some {| arg_name := key_param self;
                                      annotation :=
                                        Some (_create_literal_annotation s) |})
                  (map (fun kv => py_str (fst kv)) (mapping self))).
  { rewrite map_map. reflexivity. }
  rewrite E. split.
  - apply NoDup_map_inv.
  - apply NoDup_map_injective.
    intros x y H. injection H as H. exact H.
Qed.

(** X10.  The class [generate_class] builds has an empty body exactly when
    no docstring is asked for, the mapping is empty and no implementation is
    asked for; otherwise its body is the docstring, when asked for, followed
    by [len(mapping)] overloads and the implementation, when asked for. *)
Theorem class_body (self : class_generator) (include_implementation : bool)
    (body : option str) (include_docstring : bool) (m : module_) :
  generate_class_module ast_parse self include_implementation body
    include_docstring = Returns m ->
  exists class_body,
    m = Module [ClassDef (class_name self) [] [] class_body []] []
    /\ length class_body
       = ((if include_docstring then 1 else 0)
          + length (mapping (super self))
          + (if include_implementation then 1 else 0))%nat
    /\ (class_body = []
        <-> include_docstring = false
            /\ mapping (super self) = []
            /\ include_implementation = false).
Proof.
  unfold generate_class_module.
  destruct (declarations _ _ _ _) as [methods|x] eqn:Hd; cbn [bind];
    [|discriminate].
  intros H. injection H as <-.
  remember ((if include_docstring
             then [Expr (Constant (CStr
                             (class_name self ++ [SPACE; 31867%N])))]
             else []) ++ methods) as cb eqn:Ecb.
  exists cb. split; [subst cb; destruct include_docstring; reflexivity|].
  apply declarations_count in Hd.
  assert (Hlen : length cb
                 = ((if include_docstring then 1 else 0)
                    + length (mapping (super self))
                    + (if include_implementation then 1 else 0))%nat).
  { subst cb. rewrite length_app, Hd. destruct include_docstring; simpl; lia. }
  split; [exact Hlen|]. split.
  - intros E. rewrite E in Hlen. simpl in Hlen.
    destruct include_docstring, include_implementation,
      (mapping (super self)); simpl in Hlen; try lia. auto.
  - intros (-> & E & ->). rewrite E in Hlen. simpl in Hlen.
    destruct cb; [reflexivity|discriminate].
Qed.

End FurtherAssembly.

(** * Texts with other blanks after the commas *)

Lemma space_not_special c :
  isspace c = true ->
  (c =? LBRACKET)%N = false /\ (c =? RBRACKET)%N = false
  /\ (c =? COMMA)%N = false.
Proof.
  intros H.
  destruct (N.eqb_spec c LBRACKET) as [->|_]; [discriminate|].
  destruct (N.eqb_spec c RBRACKET) as [->|_]; [discriminate|].
  destruct (N.eqb_spec c COMMA) as [->|_]; [discriminate|]. auto.
Qed.

Lemma walk_space ws d : forallb isspace ws = true -> walk d ws = Some d.
Proof.
  induction ws as [|c ws IH]; simpl; intros H; [reflexivity|].
  apply andb_true_iff in H as [Hc Hs].
  apply space_not_special in Hc as (-> & -> & ->). simpl. apply IH, Hs.
Qed.

Section LooseText.

Variable ws : str.
Hypothesis Hws : forallb isspace ws = true.

Lemma walk_separator d : (d <> 0)%Z -> walk d (COMMA :: ws) = Some d.
Proof.
  intros Hd. simpl. destruct (Z.eqb_spec d 0); [contradiction|].
  apply walk_space, Hws.
Qed.

Lemma scan_separator_with acc cur w :
  fold_left scan_step ((COMMA :: ws) ++ w)
    {| arg_list := acc; depth := 0; current := cur |}
  = fold_left scan_step w
      {| arg_list := acc ++ [strip cur]; depth := 0; current := ws |}.
Proof.
  change ((COMMA :: ws) ++ w) with (COMMA :: (ws ++ w)).
  cbn [fold_left].
  change (scan_step {| arg_list := acc; depth := 0; current := cur |} COMMA)
    with {| arg_list := acc ++ [strip cur]; depth := 0; current := [] |}.
  rewrite fold_left_app.
  rewrite (scan_walk ws _ 0%Z) by (apply walk_space, Hws). reflexivity.
Qed.

Lemma serialize_cons_with base a l :
  (serialize_with ws) (Node base (a :: l)) =
  base ++ [LBRACKET] ++ join (COMMA :: ws) (map (serialize_with ws) (a :: l))
       ++ [RBRACKET].
Proof. reflexivity. Qed.

Lemma segments_cons2_with a b r :
  (segments_with ws) (a :: b :: r) = (serialize_with ws) a :: (segments_with ws) (b :: r).
Proof. reflexivity. Qed.

Lemma segments_length_with l : length ((segments_with ws) l) = length l.
Proof.
  induction l as [|a [|b r] IH]; [reflexivity|reflexivity|].
  rewrite segments_cons2_with. simpl in *. rewrite IH. reflexivity.
Qed.

Lemma serialize_head_with n :
  well_formed n = true ->
  exists c r, (serialize_with ws) n = c :: r /\ base_char c = true.
Proof.
  destruct n as [base arguments]. intros H.
  apply well_formed_node in H as [Hb _].
  destruct base as [|c b]; [discriminate|]. simpl in Hb.
  apply andb_true_iff in Hb as [Hc _].
  destruct arguments; simpl; eauto.
Qed.

Lemma rstrip_serialize_head_with n :
  well_formed n = true ->
  exists c r, rstrip_brackets ((serialize_with ws) n) = c :: r /\ base_char c = true.
Proof.
  intros H. destruct (serialize_head_with n H) as (c & r & -> & Hc).
  destruct (rstrip_by_head (N.eqb RBRACKET) c r) as [r' E].
  - apply base_char_spec in Hc as (_ & _ & Hc & _).
    rewrite N.eqb_sym. exact Hc.
  - exists c, r'. split; assumption.
Qed.

Lemma walk_joined_with l : 
  Forall (fun a => forall d, (0 <= d)%Z -> walk d ((serialize_with ws) a) = Some d) l ->
  forall d, (0 < d)%Z ->
  walk d (join (COMMA :: ws) (map (serialize_with ws) l)) = Some d.
Proof.
  induction 1 as [|a l Ha Hl IH]; intros d Hd; [reflexivity|].
  destruct l as [|b r]; [simpl; apply Ha; lia|].
  change (map (serialize_with ws) (a :: b :: r))
    with ((serialize_with ws) a :: (serialize_with ws) b :: map (serialize_with ws) r).
  rewrite join_cons2, walk_app, Ha by lia.
  rewrite walk_app.
  rewrite walk_separator by lia.
  apply IH. exact Hd.
Qed.

Lemma walk_serialize_with n :
  well_formed n = true ->
  forall d, (0 <= d)%Z -> walk d ((serialize_with ws) n) = Some d.
Proof.
  induction n as [base arguments IH] using TypeNode_induction.
  intros H d Hd. apply well_formed_node in H as [Hb Ha].
  apply base_name_chars in Hb as [_ Hb].
  destruct arguments as [|a l]; [simpl; apply walk_base; exact Hb|].
  rewrite serialize_cons_with, walk_app, (walk_base _ _ Hb).
  change (walk d ([LBRACKET] ++ ?w)) with (walk (d + 1) w).
  rewrite walk_app, walk_joined_with; [simpl; f_equal; lia| |lia].
  rewrite Forall_forall in *. intros x Hx. apply IH; auto.
Qed.

Lemma rstrip_joined_with l :
  l <> [] -> Forall (fun a => well_formed a = true) l ->
  rstrip_brackets (join (COMMA :: ws) (map (serialize_with ws) l))
  = join (COMMA :: ws) ((segments_with ws) l)
  /\ join (COMMA :: ws) ((segments_with ws) l) <> [].
Proof.
  intros Hne H. induction H as [|a l Ha Hl IH]; [contradiction|].
  destruct l as [|b r].
  - simpl. destruct (rstrip_serialize_head_with a Ha) as (c & t & E & _).
    rewrite E. split; [reflexivity|discriminate].
  - destruct IH as [IH1 IH2]; [discriminate|].
    rewrite segments_cons2_with.
    change (map (serialize_with ws) (a :: b :: r))
      with ((serialize_with ws) a :: map (serialize_with ws) (b :: r)).
    remember ((segments_with ws) (b :: r)) as S eqn:ES.
    assert (exists s1 S', S = s1 :: S') as (s1 & S' & ->).
    { destruct r; simpl in ES; subst S; eauto. }
    remember (map (serialize_with ws) (b :: r)) as M eqn:EM.
    assert (exists m1 M', M = m1 :: M') as (m1 & M' & ->).
    { subst M. simpl. eauto. }
    rewrite !join_cons2. split.
    + unfold rstrip_brackets in *. rewrite rstrip_by_app.
      rewrite (rstrip_by_app _ (COMMA :: ws)). rewrite IH1.
      destruct (join (COMMA :: ws) (s1 :: S')) as [|x y] eqn:Ej;
        [contradiction|reflexivity].
    + destruct (serialize_head_with a Ha) as (c & t & -> & _). discriminate.
Qed.

Lemma rstrip_serialize_node_with base a l :
  well_formed (Node base (a :: l)) = true ->
  rstrip_brackets ((serialize_with ws) (Node base (a :: l)))
  = base ++ [LBRACKET] ++ join (COMMA :: ws) ((segments_with ws) (a :: l)).
Proof.
  intros H. apply well_formed_node in H as [_ Ha].
  destruct (rstrip_joined_with (a :: l)) as [E Hne]; [discriminate|exact Ha|].
  rewrite serialize_cons_with. unfold rstrip_brackets in *.
  rewrite !app_assoc. rewrite rstrip_by_drop by reflexivity.
  rewrite rstrip_by_app, E.
  destruct (join (COMMA :: ws) ((segments_with ws) (a :: l)));
    [contradiction|reflexivity].
Qed.

Lemma segments_ne_with l : l <> [] -> (segments_with ws) l <> [].
Proof. destruct l as [|a [|b r]]; [contradiction|discriminate|discriminate]. Qed.

Lemma serialize_last_with n :
  well_formed n = true ->
  exists x d, (serialize_with ws) n = x ++ [d] /\ isspace d = false.
Proof.
  destruct n as [base [|a l]]; intros H.
  - apply well_formed_node in H as [Hb _].
    apply base_name_chars in Hb as [Hne Hb].
    destruct (exists_last Hne) as (x & d & ->). exists x, d.
    split; [reflexivity|]. rewrite forallb_app in Hb.
    apply andb_true_iff in Hb as [_ Hd]. simpl in Hd.
    rewrite andb_true_r in Hd. apply base_char_spec in Hd. tauto.
  - rewrite serialize_cons_with. rewrite !app_assoc.
    eexists _, RBRACKET. split; reflexivity.
Qed.

Lemma joined_segments_last_with l :
  l <> [] ->
  Forall (fun a => exists x d,
            rstrip_brackets ((serialize_with ws) a) = x ++ [d] /\ isspace d = false) l ->
  exists x d, join (COMMA :: ws) ((segments_with ws) l) = x ++ [d] /\ isspace d = false.
Proof.
  intros Hne H. induction H as [|a l Ha Hl IH]; [contradiction|].
  destruct l as [|b r]; [exact Ha|].
  destruct IH as (x & d & E & Hd); [discriminate|].
  rewrite segments_cons2_with, join_cons_ne, E by (apply segments_ne_with; discriminate).
  exists ((serialize_with ws) a ++ (COMMA :: ws) ++ x), d.
  rewrite <- !app_assoc. split; [reflexivity|exact Hd].
Qed.

Lemma rstrip_serialize_last_with n :
  well_formed n = true ->
  exists x d,
    rstrip_brackets ((serialize_with ws) n) = x ++ [d] /\ isspace d = false.
Proof.
  induction n as [base arguments IH] using TypeNode_induction. intros H.
  destruct arguments as [|a l].
  - apply well_formed_node in H as [Hb _].
    apply base_name_chars in Hb as [Hne Hb].
    destruct (exists_last Hne) as (x & d & ->). exists x, d.
    rewrite forallb_app in Hb. apply andb_true_iff in Hb as [_ Hd].
    simpl in Hd. rewrite andb_true_r in Hd.
    apply base_char_spec in Hd as (Hs & _ & Hr & _).
    split; [|exact Hs]. simpl. apply rstrip_by_keep.
    rewrite N.eqb_sym. exact Hr.
  - rewrite (rstrip_serialize_node_with _ _ _ H).
    apply well_formed_node in H as [_ Ha].
    destruct (joined_segments_last_with (a :: l)) as (x & d & E & Hd);
      [discriminate| |].
    + rewrite Forall_forall in *. intros y Hy. apply IH; auto.
    + rewrite E. exists (base ++ [LBRACKET] ++ x), d.
      rewrite <- !app_assoc. split; [reflexivity|exact Hd].
Qed.

Lemma scan_segments_with l :
  l <> [] -> Forall (fun a => well_formed a = true) l ->
  forall acc pre, forallb isspace pre = true ->
  scan_finish
    (fold_left scan_step (join (COMMA :: ws) ((segments_with ws) l))
       {| arg_list := acc; depth := 0; current := pre |})
  = acc ++ (segments_with ws) l.
Proof.
  intros Hne H. induction H as [|a l Ha Hl IH]; [contradiction|].
  intros acc pre Hpre. destruct l as [|b r].
  - simpl join.
    destruct (rstrip_by_prefix (N.eqb RBRACKET) ((serialize_with ws) a)) as [t Et].
    pose proof (walk_serialize_with a Ha 0%Z (Z.le_refl 0)) as Hw.
    rewrite Et in Hw. apply walk_prefix in Hw as [d' Hw].
    rewrite (scan_walk _ _ d') by exact Hw. simpl current.
    destruct (rstrip_serialize_head_with a Ha) as (c & s & E & Hc).
    destruct (rstrip_serialize_last_with a Ha) as (x & d & E' & Hd).
    fold (rstrip_brackets ((serialize_with ws) a)). cbn [segments_with].
    rewrite scan_finish_current; simpl.
    + rewrite E. rewrite (strip_keep pre c s x d); congruence.
    + rewrite E. destruct pre; discriminate.
  - rewrite segments_cons2_with, join_cons_ne by (apply segments_ne_with; discriminate).
    rewrite fold_left_app.
    rewrite (scan_walk ((serialize_with ws) a) _ 0%Z)
      by (apply walk_serialize_with; [exact Ha|simpl; lia]).
    simpl arg_list. simpl current. rewrite scan_separator_with.
    rewrite IH by (try discriminate; exact Hws).
    destruct (serialize_head_with a Ha) as (c & s & E & Hc).
    destruct (serialize_last_with a Ha) as (x & d & E' & Hd).
    rewrite E. rewrite (strip_keep pre c s x d) by congruence.
    rewrite <- app_assoc. reflexivity.
Qed.

Lemma split_args_segments_with l :
  l <> [] -> Forall (fun a => well_formed a = true) l ->
  split_args (join (COMMA :: ws) ((segments_with ws) l)) = (segments_with ws) l.
Proof.
  intros Hne H. exact (scan_segments_with l Hne H [] [] eq_refl).
Qed.

Lemma comprehension_segments_with l :
  Forall (fun n =>
    _create_type_annotation ((serialize_with ws) n) = Returns (to_ast n)
    /\ _create_type_annotation (rstrip_brackets ((serialize_with ws) n))
       = Returns (to_ast n)) l ->
  comprehension _create_type_annotation ((segments_with ws) l)
  = Returns (map to_ast l).
Proof.
  induction 1 as [|a l [Ha Ha'] Hl IH]; [reflexivity|].
  destruct l as [|b r].
  - simpl. rewrite Ha'. reflexivity.
  - rewrite segments_cons2_with.
    change (comprehension _create_type_annotation
              ((serialize_with ws) a :: (segments_with ws) (b :: r)))
      with (y <- _create_type_annotation ((serialize_with ws) a) ;;
            ys <- comprehension _create_type_annotation ((segments_with ws) (b :: r)) ;;
            Returns (y :: ys)).
    rewrite Ha, IH. reflexivity.
Qed.

Lemma parse_group_with s base args a l :
  split_first LBRACKET s = Some (base, args) ->
  rstrip_brackets args = join (COMMA :: ws) ((segments_with ws) (a :: l)) ->
  well_formed (Node base (a :: l)) = true ->
  Forall (fun n =>
    _create_type_annotation ((serialize_with ws) n) = Returns (to_ast n)
    /\ _create_type_annotation (rstrip_brackets ((serialize_with ws) n))
       = Returns (to_ast n)) (a :: l) ->
  _create_type_annotation s = Returns (to_ast (Node base (a :: l))).
Proof.
  intros Hs Hargs Hwf IH.
  apply well_formed_node in Hwf as [Hb Ha].
  rewrite _create_type_annotation_eq, Hs. cbv zeta.
  rewrite Hargs, split_args_segments_with, segments_length_with, (strip_base _ Hb)
    by (try discriminate; exact Ha).
  pose proof (comprehension_segments_with _ IH) as Hc.
  destruct l as [|b r].
  - simpl in Hc |- *.
    destruct (_create_type_annotation (rstrip_brackets ((serialize_with ws) a)));
      [|discriminate].
    injection Hc as ->. reflexivity.
  - change (1 <? length (a :: b :: r))%nat with true. cbv iota.
    rewrite Hc. reflexivity.
Qed.

Lemma parse_serialized_with n :
  well_formed n = true ->
  _create_type_annotation ((serialize_with ws) n) = Returns (to_ast n)
  /\ _create_type_annotation (rstrip_brackets ((serialize_with ws) n))
     = Returns (to_ast n).
Proof.
  induction n as [base arguments IH] using TypeNode_induction. intros H.
  pose proof (well_formed_node _ _ H) as [Hb Ha].
  pose proof (base_name_chars _ Hb) as [Hne Hchars].
  assert (IH' : Forall (fun n =>
    _create_type_annotation ((serialize_with ws) n) = Returns (to_ast n)
    /\ _create_type_annotation (rstrip_brackets ((serialize_with ws) n))
       = Returns (to_ast n)) arguments).
  { rewrite Forall_forall in *. intros x Hx. apply IH; auto. }
  destruct arguments as [|a l].
  - assert (E : rstrip_brackets base = base).
    { destruct (rstrip_serialize_last_with (Node base []) H) as (x & d & E & _).
      destruct (rstrip_by_prefix (N.eqb RBRACKET) base) as [t Et].
      destruct (exists_last Hne) as (y & e & Eb). simpl in E.
      rewrite Eb in Hchars. rewrite forallb_app in Hchars.
      apply andb_true_iff in Hchars as [_ He]. simpl in He.
      rewrite andb_true_r in He.
      apply base_char_spec in He as (_ & _ & He & _).
      rewrite Eb. apply rstrip_by_keep. rewrite N.eqb_sym. exact He. }
    cbn [serialize_with]. rewrite E.
    assert (_create_type_annotation base = Returns (Name base)) as ->.
    { rewrite _create_type_annotation_eq,
        (split_first_none _ _ (base_no_bracket _ Hchars)),
        (strip_base _ Hb). reflexivity. }
    split; reflexivity.
  - destruct (rstrip_joined_with (a :: l)) as [EJ _]; [discriminate|exact Ha|].
    split.
    + apply (parse_group_with _ base
               (join (COMMA :: ws) (map (serialize_with ws) (a :: l)) ++ [RBRACKET]));
        [| |exact H|exact IH'].
      * rewrite serialize_cons_with. apply split_first_app, base_no_bracket, Hchars.
      * unfold rstrip_brackets in *.
        rewrite rstrip_by_drop by reflexivity. exact EJ.
    + apply (parse_group_with _ base (join (COMMA :: ws) ((segments_with ws) (a :: l))));
        [| |exact H|exact IH'].
      * rewrite (rstrip_serialize_node_with _ _ _ H).
        apply split_first_app, base_no_bracket, Hchars.
      * rewrite <- EJ. apply rstrip_by_idem.
Qed.

End LooseText.

(** X13.  The blanks after the commas do not matter: a well-formed node
    written with any whitespace, or none, after each comma (['dict[str,Any]']
    as well as ['dict[str,  Any]']) is parsed to the tree of that node. *)
Theorem blanks_after_commas_ignored (ws : str) (n : TypeNode) :
  forallb isspace ws = true ->
  well_formed n = true ->
  _create_type_annotation (serialize_with ws n) = Returns (to_ast n).
Proof.
  intros Hws H. apply (parse_serialized_with ws Hws n H).
Qed.

Lemma blanks_after_commas_ignored_witness :
  _create_type_annotation (py "Map[String,List[Int]]")
  = Returns (to_ast map_string_list_int)
  /\ _create_type_annotation (serialize_with (py "   ") map_string_list_int)
     = Returns (to_ast map_string_list_int).
Proof.
  split.
  - exact (blanks_after_commas_ignored [] map_string_list_int
             eq_refl eq_refl).
  - exact (blanks_after_commas_ignored (py "   ") map_string_list_int
             eq_refl eq_refl).
Defined.

(** * Witnesses for the properties of the assembler *)

Lemma parameters_in_order_witness :
  exists m,
    generate_module reject_all async_generator true None = Returns m
    /\ Forall
         (fun f =>
            exists key extra,
              stmt_args f = receiver async_generator ++ key :: extra
              /\ arg_name key = py "resource_name"
              /\ Forall2
                   (fun p a =>
                      arg_name a = fst p
                      /\ exists t,
                           annotation a = Some t
                           /\ _create_type_annotation (snd p) = Returns t)
                   [(py "id", py "int")] extra)
         (module_body m).
Proof.
  destruct (generate_module reject_all async_generator true None)
    as [m|e] eqn:E; [|vm_compute in E; discriminate].
  exists m. split; [reflexivity|].
  exact (parameters_in_order reject_all async_generator true None m E).
Defined.

Lemma implementation_appended_witness :
  exists m overloads impl,
    generate_module reject_all async_generator true None = Returns m
    /\ generate_module reject_all async_generator false (Some (py "pass"))
       = Returns (Module overloads [])
    /\ m = Module (overloads ++ [impl]) []
    /\ stmt_decorators impl = []
    /\ stmt_body impl = placeholder.
Proof.
  destruct (generate_module reject_all async_generator true None)
    as [m|e] eqn:E; [|vm_compute in E; discriminate].
  destruct (implementation_appended reject_all async_generator None
              (Some (py "pass")) m E)
    as (overloads & impl & H1 & H2 & _ & H4 & _ & _ & H7).
  exists m, overloads, impl. auto.
Defined.

Lemma declarations_follow_async_flag_witness :
  is_async async_generator = true
  /\ exists m,
       generate_module reject_all async_generator true None = Returns m
       /\ Forall (fun f => is_function f = true /\ is_async_def f = true)
            (module_body m).
Proof.
  split; [reflexivity|].
  destruct (generate_module reject_all async_generator true None)
    as [m|e] eqn:E; [|vm_compute in E; discriminate].
  exists m. split; [reflexivity|].
  exact (declarations_follow_async_flag reject_all async_generator true None
           m E).
Defined.

Lemma narrowings_distinct_iff_witness :
  exists m,
    generate_module reject_all mixed_generator false None = Returns m
    /\ (NoDup (map (discriminant mixed_generator) (module_body m))
        <-> NoDup [py "1"; py "two"]).
Proof.
  destruct (generate_module reject_all mixed_generator false None)
    as [m|e] eqn:E; [|vm_compute in E; discriminate].
  exists m. split; [reflexivity|].
  exact (narrowings_distinct_iff reject_all mixed_generator None m E).
Defined.

Lemma class_body_witness :
  exists m class_body,
    generate_class_module reject_all
      (ClassMethodOverloadGenerator (py "C") class_arguments)
      true None true = Returns m
    /\ m = Module [ClassDef (py "C") [] [] class_body []] []
    /\ length class_body = 3%nat.
Proof.
  destruct (generate_class_module reject_all
              (ClassMethodOverloadGenerator (py "C") class_arguments)
              true None true) as [m|e] eqn:E;
    [|vm_compute in E; discriminate].
  destruct (class_body reject_all
              (ClassMethodOverloadGenerator (py "C") class_arguments)
              true None true m E) as (cb & H1 & H2 & _).
  exists m, cb. split; [reflexivity|]. split; [exact H1|exact H2].
Defined.

(** * The convenience functions and the client script *)

Section ConvenienceProperties.

Variable ast_parse : str -> result module_.
Variable ast_unparse : module_ -> str.

Lemma default_overload_entry function_name entries kv :
  overload_entry (OverloadGenerator (no_arguments function_name entries)) kv
  = (r <- _create_type_annotation
            match snd kv with
            | PyType name _ => name
            | PyStr s => s
            | PyInt _ | PyOther _ => py "Any"
            end ;;
     Returns
       (FunctionDef function_name
          {| posonlyargs := [];
             args := [{| arg_name := py "self"; annotation := None |};
                      {| arg_name := py "resource_name";
                         annotation :=
                           Some (Subscript (Name (py "Literal"))
                                   (Constant (CStr (py_str (fst kv))))) |}];
             kwonlyargs := []; kw_defaults := []; defaults := [] |}
          [Expr (Constant CEllipsis)] [Name (py "overload")] r)).
Proof. reflexivity. Qed.

(** X11.  Called with a function name and a mapping only,
    [generate_overloads] declares synchronous methods: each overload has
    exactly the parameters [self] and [resource_name], the latter narrowed
    to [str(key)], and returns the class name, the string or ['Any'] parsed
    as a type, one overload per entry in the order of the mapping. *)
Theorem generate_overloads_defaults (function_name : str)
    (entries : list (pyobj * pyobj)) (text : str) :
  generate_overloads ast_parse ast_unparse
    (no_arguments function_name entries) = Returns text ->
  exists functions,
    text = ast_unparse (Module functions [])
    /\ Forall2
         (fun kv f =>
            exists r,
              _create_type_annotation
                match snd kv with
                | PyType name _ => name
                | PyStr s => s
                | PyInt _ | PyOther _ => py "Any"
                end = Returns r
              /\ f = FunctionDef function_name
                       {| posonlyargs := [];
                          args :=
                            [{| arg_name := py "self"; annotation := None |};
                             {| arg_name := py "resource_name";
                                annotation :=
                                  Some (Subscript (Name (py "Literal"))
                                          (Constant
                                             (CStr (py_str (fst kv))))) |}];
                          kwonlyargs := []; kw_defaults := [];
                          defaults := [] |}
                       [Expr (Constant CEllipsis)] [Name (py "overload")] r)
         entries functions.
Proof.
  unfold generate_overloads, generate, generate_module, declarations.
  cbv zeta. rewrite append_overloads_spec.
  change (mapping (OverloadGenerator (no_arguments function_name entries)))
    with entries.
  destruct (comprehension _ entries) as [ovs|x] eqn:Hc; cbn [bind];
    [|discriminate].
  intros H. injection H as <-. exists ovs. split; [reflexivity|].
  apply comprehension_Forall2 in Hc.
  eapply Forall2_impl; [|exact Hc].
  intros kv f Hf. cbv beta in Hf. rewrite default_overload_entry in Hf.
  destruct (_create_type_annotation _) as [r|x]; cbn [bind] in Hf;
    [|discriminate].
  injection Hf as <-. exists r. split; reflexivity.
Qed.





End ConvenienceProperties.

Lemma generate_overloads_defaults_witness :
  exists functions,
    length functions = 2%nat
    /\ Forall2
         (fun kv f =>
            exists r,
              _create_type_annotation
                match snd kv with
                | PyType name _ => name
                | PyStr s => s
                | PyInt _ | PyOther _ => py "Any"
                end = Returns r
              /\ f = FunctionDef (py "f")
                       {| posonlyargs := [];
                          args :=
                            [{| arg_name := py "self"; annotation := None |};
                             {| arg_name := py "resource_name";
                                annotation :=
                                  Some (Subscript (Name (py "Literal"))
                                          (Constant
                                             (CStr (py_str (fst kv))))) |}];
                          kwonlyargs := []; kw_defaults := [];
                          defaults := [] |}
                       [Expr (Constant CEllipsis)] [Name (py "overload")] r)
         (mapping mixed_generator) functions.
Proof.
  destruct (generate_overloads_defaults reject_all print_nothing (py "f")
              (mapping mixed_generator) [] eq_refl) as (fs & _ & H).
  exists fs. split; [|exact H].
  apply Forall2_length in H. symmetry. exact H.
Defined.


(** * Unbalanced brackets, trailing commas and parsing again *)

(** X14.  Missing closing brackets are supplied silently: the text of a
    well-formed node with arguments, cut before its closing brackets at the
    end and followed by any number of closing brackets, too few or too many,
    is parsed to the tree of the node. *)
Theorem unbalanced_brackets_accepted (base : str) (a : TypeNode)
    (l : list TypeNode) (k : nat) :
  well_formed (Node base (a :: l)) = true ->
  _create_type_annotation
    (rstrip_brackets (serialize (Node base (a :: l))) ++ repeat RBRACKET k)
  = Returns (to_ast (Node base (a :: l))).
Proof.
  intros H. rewrite more_closing_brackets.
  - apply parse_serialized, H.
  - rewrite (rstrip_serialize_node _ _ _ H).
    apply in_or_app. right. left. reflexivity.
Qed.

Lemma unbalanced_brackets_accepted_witness :
  _create_type_annotation (py "Map[String, List[Int")
  = Returns (to_ast map_string_list_int)
  /\ _create_type_annotation (py "Map[String, List[Int]]]]]")
     = Returns (to_ast map_string_list_int).
Proof.
  split.
  - exact (unbalanced_brackets_accepted (py "Map") (Node (py "String") [])
             [Node (py "List") [Node (py "Int") []]] 0 eq_refl).
  - exact (unbalanced_brackets_accepted (py "Map") (Node (py "String") [])
             [Node (py "List") [Node (py "Int") []]] 5 eq_refl).
Defined.

Lemma scan_comma acc cur :
  scan_step {| arg_list := acc; depth := 0; current := cur |} COMMA
  = {| arg_list := acc ++ [strip cur]; depth := 0; current := [] |}.
Proof. reflexivity. Qed.

Lemma scan_joined_comma l :
  l <> [] -> Forall (fun a => well_formed a = true) l ->
  forall acc pre, forallb isspace pre = true ->
  fold_left scan_step (join [COMMA; SPACE] (map serialize l) ++ [COMMA])
    {| arg_list := acc; depth := 0; current := pre |}
  = {| arg_list := acc ++ map serialize l; depth := 0; current := [] |}.
Proof.
  intros Hne H. induction H as [|a l Ha Hl IH]; [contradiction|].
  intros acc pre Hpre.
  destruct (serialize_head a Ha) as (c & s & E & Hc).
  destruct (serialize_last a Ha) as (x & d & E' & Hd).
  destruct l as [|b r].
  - simpl map. simpl join. rewrite fold_left_app.
    rewrite (scan_walk (serialize a) _ 0%Z)
      by (apply walk_serialize; [exact Ha|simpl; lia]).
    simpl arg_list. simpl current. cbn [fold_left]. rewrite scan_comma.
    rewrite E, (strip_keep pre c s x d) by congruence. reflexivity.
  - change (map serialize (a :: b :: r))
      with (serialize a :: map serialize (b :: r)).
    rewrite join_cons_ne by discriminate.
    rewrite <- !app_assoc, fold_left_app.
    rewrite (scan_walk (serialize a) _ 0%Z)
      by (apply walk_serialize; [exact Ha|simpl; lia]).
    simpl arg_list. simpl current. rewrite scan_separator.
    rewrite IH by (try discriminate; reflexivity).
    rewrite E, (strip_keep pre c s x d) by congruence.
    rewrite <- app_assoc. reflexivity.
Qed.

Lemma comprehension_serialized l :
  Forall (fun a => well_formed a = true) l ->
  comprehension _create_type_annotation (map serialize l)
  = Returns (map to_ast l).
Proof.
  induction 1 as [|a l Ha _ IH]; [reflexivity|].
  simpl. rewrite (proj1 (parse_serialized a Ha)), IH. reflexivity.
Qed.

(** X15.  A comma before the closing bracket is dropped: the text of a
    well-formed node with that comma added is parsed to the tree of the
    node, so that ['list[int,]'] is [list] subscripted by [int] and not by a
    tuple of one element. *)
Theorem trailing_comma_dropped (base : str) (a : TypeNode)
    (l : list TypeNode) :
  well_formed (Node base (a :: l)) = true ->
  _create_type_annotation
    (base ++ [LBRACKET] ++ join [COMMA; SPACE] (map serialize (a :: l))
          ++ [COMMA; RBRACKET])
  = Returns (to_ast (Node base (a :: l))).
Proof.
  intros H. pose proof (well_formed_node _ _ H) as [Hb Ha].
  pose proof (base_name_chars _ Hb) as [_ Hchars].
  rewrite _create_type_annotation_eq.
  assert (Hs : split_first LBRACKET
                 (base ++ [LBRACKET]
                       ++ join [COMMA; SPACE] (map serialize (a :: l))
                       ++ [COMMA; RBRACKET])
               = Some (base, join [COMMA; SPACE] (map serialize (a :: l))
                               ++ [COMMA; RBRACKET]))
    by (apply split_first_app, base_no_bracket, Hchars).
  rewrite Hs. cbv zeta.
  assert (E : rstrip_brackets
                (join [COMMA; SPACE] (map serialize (a :: l))
                   ++ [COMMA; RBRACKET])
              = join [COMMA; SPACE] (map serialize (a :: l)) ++ [COMMA]).
  { unfold rstrip_brackets.
    change [COMMA; RBRACKET] with ([COMMA] ++ [RBRACKET]).
    rewrite app_assoc, rstrip_by_drop, rstrip_by_keep by reflexivity.
    reflexivity. }
  rewrite E.
  assert (S : split_args (join [COMMA; SPACE] (map serialize (a :: l))
                            ++ [COMMA])
              = map serialize (a :: l)).
  { unfold split_args, scan_init.
    rewrite (scan_joined_comma (a :: l)) by (try discriminate; auto).
    reflexivity. }
  rewrite S, length_map, (strip_base _ Hb).
  pose proof (comprehension_serialized _ Ha) as Hc.
  destruct l as [|b r].
  - simpl in Hc |- *.
    destruct (_create_type_annotation (serialize a)); [|discriminate].
    injection Hc as ->. reflexivity.
  - change (1 <? length (a :: b :: r))%nat with true. cbv iota.
    rewrite Hc. reflexivity.
Qed.

Lemma trailing_comma_dropped_witness :
  _create_type_annotation (py "list[int,]")
  = Returns (Subscript (Name (py "list")) (Name (py "int"))).
Proof.
  exact (trailing_comma_dropped (py "list") (Node (py "int") []) [] eq_refl).
Defined.

Lemma expr_induction (P : expr -> Prop) :
  (forall id, P (Name id)) ->
  (forall v s, P v -> P s -> P (Subscript v s)) ->
  (forall elts, Forall P elts -> P (Tuple elts)) ->
  (forall c, P (Constant c)) ->
  forall e, P e.
Proof.
  intros Hn Hs Ht Hc. fix IH 1. intros [id|v s|elts|c].
  - apply Hn.
  - apply Hs; apply IH.
  - apply Ht. induction elts as [|x l IHl]; constructor; [apply IH|exact IHl].
  - apply Hc.
Qed.

Lemma all_some_to_ast elts : forall ns,
  Forall (fun x => forall n, type_node x = Some n -> to_ast n = x) elts ->
  all_some (map type_node elts) = Some ns ->
  map to_ast ns = elts.
Proof.
  induction elts as [|x elts IH]; simpl; intros ns H E.
  - injection E as <-. reflexivity.
  - inversion H as [|? ? Hx Hl]; subst.
    destruct (type_node x) as [n|]; [|discriminate].
    destruct (all_some (map type_node elts)) as [ms|]; [|discriminate].
    injection E as <-. simpl. rewrite (Hx n eq_refl), (IH ms Hl eq_refl).
    reflexivity.
Qed.

(** The tree of the node a tree stands for is that tree. *)
Lemma to_ast_type_node e :
  (forall n, type_node e = Some n -> to_ast n = e)
  /\ match e with
     | Tuple elts =>
         Forall (fun x => forall n, type_node x = Some n -> to_ast n = x) elts
     | _ => True
     end.
Proof.
  induction e as [id|v s IHv IHs|elts IH|c] using expr_induction.
  - split; [|exact I]. intros n H. injection H as <-. reflexivity.
  - split; [|exact I]. intros n H.
    destruct v as [id| | |]; try discriminate.
    destruct s as [id'|v' s'|elts|c].
    + simpl in H. injection H as <-. reflexivity.
    + change (type_node (Subscript (Name id) (Subscript v' s')))
        with (match type_node (Subscript v' s') with
              | Some a => Some (Node id [a])
              | None => None
              end) in H.
      destruct (type_node (Subscript v' s')) as [a|] eqn:Ea; [|discriminate].
      injection H as <-.
      change (to_ast (Node id [a])) with (Subscript (Name id) (to_ast a)).
      rewrite (proj1 IHs a eq_refl). reflexivity.
    + change (type_node (Subscript (Name id) (Tuple elts)))
        with (match all_some (map type_node elts) with
              | Some (a :: b :: r) => Some (Node id (a :: b :: r))
              | _ => None
              end) in H.
      destruct (all_some (map type_node elts)) as [[|a [|b r]]|] eqn:Ea;
        try discriminate.
      injection H as <-.
      change (to_ast (Node id (a :: b :: r)))
        with (Subscript (Name id) (Tuple (map to_ast (a :: b :: r)))).
      rewrite (all_some_to_ast elts _ (proj2 IHs) Ea). reflexivity.
    + simpl in H. discriminate.
  - split; [intros n H; discriminate|].
    rewrite Forall_forall in *. intros x Hx. apply (IH x Hx).
  - split; [intros n H; discriminate|exact I].
Qed.

(** X16.  Parsing again is stable: the tree returned for any text stands
    for a type node, and when the names of that node are plain names, its
    serialized text is parsed to the very same tree. *)
Theorem reparse_is_stable (type_str : str) (e : expr) :
  _create_type_annotation type_str = Returns e ->
  exists n,
    type_node e = Some n
    /\ (well_formed n = true ->
        _create_type_annotation (serialize n) = Returns e).
Proof.
  intros H.
  destruct (parse_shape_bounded (S (length type_str)) type_str e
              (Nat.lt_succ_diag_r _) H) as (n & Hn & _).
  exists n. split; [exact Hn|]. intros Hwf.
  rewrite (proj1 (parse_serialized n Hwf)).
  rewrite (proj1 (to_ast_type_node e) n Hn). reflexivity.
Qed.

Lemma reparse_is_stable_witness :
  exists n,
    type_node (to_ast map_string_list_int) = Some n
    /\ well_formed n = true
    /\ _create_type_annotation (serialize n)
       = Returns (to_ast map_string_list_int).
Proof.
  destruct (reparse_is_stable (py " Map [String,List[Int") 
              (to_ast map_string_list_int)) as (n & Hn & Hs).
  - vm_compute. reflexivity.
  - exists n. split; [exact Hn|].
    assert (E : n = map_string_list_int).
    { vm_compute in Hn. injection Hn as <-. reflexivity. }
    subst n. split; [reflexivity|]. apply Hs. reflexivity.
Defined.
